(** * Live synchronisation layer of the ALPR dashboard client

    A shallow embedding of the push-connection service
    ([services/websocket.ts]) and of the list handlers that merge REST
    snapshots with pushed envelopes ([RecentEvents.tsx], [Sessions.tsx],
    [ActiveSessions.tsx]), together with the properties the specification
    states about them. *)

From Stdlib Require Import ZArith Lia.
From Stdlib Require QArith.
From stdpp Require Import base tactics option list strings numbers pretty.

Local Open Scope Z_scope.

(** ** Shared data *)

(** [WebSocketMessage.type] *)
Inductive MsgType := event | session | system | stats.

#[global] Instance MsgType_eq_dec : EqDecision MsgType.
Proof. solve_decision. Defined.

(** [Event.event_type] *)
Inductive EventType := entry | exit | denied.

#[global] Instance EventType_eq_dec : EqDecision EventType.
Proof. solve_decision. Defined.

(** [interface Event] of RecentEvents.tsx.  [confidence] is a number the
    handlers never read; it is carried as an integer percentage. *)
Record Event := {
  id : Z;
  event_type : EventType;
  license_plate : string;
  timestamp : string;
  camera_location : string;
  confidence : option Z
}.

#[global] Instance Event_eq_dec : EqDecision Event.
Proof. solve_decision. Defined.

(** [type WebSocketMessage = { type; data: any }].  Every handler embedded
    below that reads [data] reads it as an event record. *)
Record WebSocketMessage := {
  type : MsgType;
  data : Event
}.

#[global] Instance WebSocketMessage_eq_dec : EqDecision WebSocketMessage.
Proof. solve_decision. Defined.

(** The ordering key of the specification is the event timestamp, an
    ISO-8601 string; timestamps of one format compare chronologically when
    compared as strings.  [more_recent a b]: [a] is strictly newer than [b]. *)
Definition more_recent (a b : Event) : bool :=
  String.ltb (timestamp b) (timestamp a).

(** [Array.prototype.slice(0, end)]: a negative [end] counts from the back,
    and the result is clamped to the array. *)
Definition slice0 {A} (end_ : Z) (l : list A) : list A :=
  let len := Z.of_nat (length l) in
  let final := if end_ <? 0 then Z.max (len + end_) 0 else Z.min end_ len in
  take (Z.to_nat final) l.

(** [Array.prototype.findIndex]: index of the first element satisfying the
    predicate, [-1] when there is none. *)
Fixpoint findIndex {A} (p : A → bool) (l : list A) : Z :=
  match l with
  | [] => -1
  | x :: l' =>
      if p x then 0
      else let r := findIndex p l' in if r <? 0 then -1 else r + 1
  end.

(** ** RecentEvents.tsx *)

Module RecentEvents.

(** Component state: [events] and [loading]. *)
Record State := {
  events : list Event;
  loading : bool
}.

Definition initial : State := {| events := []; loading := true |}.

(** The updater passed to [setEvents] by the subscription callback:
    [(prevEvents) => [message.data, ...prevEvents.slice(0, 5)]]. *)
Definition prepend (d : Event) (prevEvents : list Event) : list Event :=
  d :: slice0 5 prevEvents.

(** The callback registered with [websocketService.subscribe]. *)
Definition on_message (message : WebSocketMessage) (prevEvents : list Event)
  : list Event :=
  match type message with
  | event => prepend (data message) prevEvents
  | _ => prevEvents
  end.

(** The tasks the event loop runs for this component.  [fetchEvents] is
    split at its [await]: the part before it ([FetchStart]), and its
    continuation, entered with the response ([FetchResolve], [items] being
    [response.items], possibly undefined) or with a rejection
    ([FetchReject]). *)
Inductive Task :=
| FetchStart
| FetchResolve (items : option (list Event))
| FetchReject
| Push (message : WebSocketMessage).

Definition step (st : State) (t : Task) : State :=
  match t with
  | FetchStart => {| events := events st; loading := true |}
  | FetchResolve items =>
      (* setEvents(response.items || []); finally setLoading(false) *)
      {| events := default [] items; loading := false |}
  | FetchReject => {| events := events st; loading := false |}
  | Push message =>
      {| events := on_message message (events st); loading := loading st |}
  end.

Definition run (st : State) (ts : list Task) : State := foldl step st ts.

(** The view obtained from a snapshot followed by pushed envelopes. *)
Definition reconcile (snapshot : list Event) (pushes : list WebSocketMessage)
  : list Event :=
  foldl (λ l m, on_message m l) snapshot pushes.

(** The payloads the callback acts on, in arrival order. *)
Definition pushed_events (pushes : list WebSocketMessage) : list Event :=
  data <$> filter (λ m, type m = event) pushes.

End RecentEvents.

(** ** Sessions.tsx *)

Module Sessions.

Inductive Status := active | completed | expired.

Record VehicleDetails := {
  owner_name : string;
  vehicle_type : string;
  vehicle_make : option string;
  vehicle_model : option string
}.

(** [interface Session]; the confidences are carried as integer
    percentages, no handler reads them. *)
Record Session := {
  id : string;
  vehicle_id : string;
  plate_number : string;
  entry_time : string;
  exit_time : option string;
  duration_minutes : option Z;
  entry_camera_id : string;
  exit_camera_id : option string;
  status : Status;
  vehicle_details : option VehicleDetails;
  entry_confidence : Z;
  exit_confidence : option Z
}.

(** [s => s.id === session.id] *)
Definition same_id (session s : Session) : bool :=
  String.eqb (id s) (id session).

(** The updater of [handleSessionUpdate]:
<<
    const index = prev.findIndex(s => s.id === session.id)
    if (index >= 0) { const updated = [...prev]; updated[index] = session; return updated }
    return [session, ...prev.slice(0, pagination.pageSize - 1)]
>> *)
Definition handleSessionUpdate (pageSize : Z) (session : Session)
    (prev : list Session) : list Session :=
  let index := findIndex (same_id session) prev in
  if 0 <=? index then <[Z.to_nat index := session]> prev
  else session :: slice0 (pageSize - 1) prev.

Definition reconcile (pageSize : Z) (snapshot : list Session)
    (pushes : list Session) : list Session :=
  foldl (λ l s, handleSessionUpdate pageSize s l) snapshot pushes.

End Sessions.

(** ** ActiveSessions.tsx *)

Module ActiveSessions.

Record Vehicle := {
  v_license_plate : string;
  v_vehicle_type : option string;
  v_owner_name : option string
}.

(** [interface Session] of the dashboard card; the fee is carried as an
    integer amount, no handler reads it. *)
Record Session := {
  id : Z;
  vehicle_id : Z;
  license_plate : string;
  entry_time : string;
  exit_time : option string;
  duration_minutes : option Z;
  parking_fee : option Z;
  vehicle : option Vehicle
}.

(** Component state, and the number of [getActiveSessions] requests
    issued so far. *)
Record State := {
  sessions : list Session;
  loading : bool;
  requests : nat
}.

Definition initial : State :=
  {| sessions := []; loading := true; requests := 0 |}.

Inductive Task :=
| FetchResolve (items : option (list Session))
| FetchReject
| Push (message : WebSocketMessage).

(** [fetchSessions()] up to its [await]. *)
Definition fetchSessions (st : State) : State :=
  {| sessions := sessions st; loading := true; requests := S (requests st) |}.

(** The subscription callback: a [session] or [event] envelope starts a
    refetch; its payload is not read. *)
Definition on_message (message : WebSocketMessage) (st : State) : State :=
  match type message with
  | session | event => fetchSessions st
  | _ => st
  end.

Definition step (st : State) (t : Task) : State :=
  match t with
  | FetchResolve items =>
      {| sessions := default [] items; loading := false;
         requests := requests st |}
  | FetchReject =>
      {| sessions := sessions st; loading := false; requests := requests st |}
  | Push message => on_message message st
  end.

Definition run (st : State) (ts : list Task) : State := foldl step st ts.

End ActiveSessions.

(** ** services/websocket.ts *)

Module WebSocketService.

(** [WebSocket.readyState] *)
Inductive ReadyState := CONNECTING | OPEN | CLOSING | CLOSED.

#[global] Instance ReadyState_eq_dec : EqDecision ReadyState.
Proof. solve_decision. Defined.

(** Sockets, callbacks (function identities) and timers are named by
    numbers. *)
Definition SocketId := nat.
Definition CallbackId := nat.
Definition TimerId := nat.

(** The lines the service writes to the console. *)
Inductive ConsoleLine :=
| LogAlreadyConnected      (* 'WebSocket already connected' *)
| LogConnected             (* 'WebSocket connected' *)
| ErrParsing               (* 'Error parsing WebSocket message:' *)
| ErrSocket                (* 'WebSocket error:' *)
| LogDisconnected          (* 'WebSocket disconnected' *)
| ErrConnecting            (* 'Error connecting to WebSocket:' *)
| LogReconnecting          (* 'Attempting to reconnect in 5s...' *)
| ErrNotConnected.         (* 'WebSocket is not connected' *)

Inductive Toast :=
| ToastSuccess (text : string)
| ToastError (text : string).

(** What [JSON.parse] hands back.  The annotation
    [const message: WebSocketMessage] checks nothing at run time: the value
    is an envelope of the declared shape, or [null] (reading a property of
    it raises), or some other value (a number, a string, an array, an object
    without the envelope's fields), whose [type] property is not ['event'].
    An object whose [type] is ['event'] but whose [data] is not an event
    record is not represented. *)
Inductive JsValue :=
| Envelope (message : WebSocketMessage)
| JsNull
| JsOther (raw : string).

#[global] Instance JsValue_eq_dec : EqDecision JsValue.
Proof. solve_decision. Defined.

(** The private fields of [class WebSocketService].  [callbacks] is the
    [Set<WebSocketCallback>]: the list of its entries in insertion order,
    where a deleted entry leaves an empty slot behind ([None]), which is
    how ECMAScript defines [Set] and what makes deletion during
    [forEach] well defined. *)
Record Service := {
  ws : option SocketId;
  callbacks : list (option CallbackId);
  reconnectTimer : option TimerId;
  isIntentionallyClosed : bool
}.

(** The service together with what surrounds it: every socket created so
    far with its [readyState] (indexed by [SocketId]), the pending
    timeouts, the console, the toasts shown, the frames sent, and the
    record of every callback invocation (oldest first). *)
Record World := {
  service : Service;
  sockets : list ReadyState;
  timers : list TimerId;
  next_timer : TimerId;
  console : list ConsoleLine;
  toasts : list Toast;
  sent : list (SocketId * string);
  calls : list (CallbackId * JsValue)
}.

Definition new_service : Service :=
  {| ws := None; callbacks := []; reconnectTimer := None;
     isIntentionallyClosed := false |}.

Definition new_world : World :=
  {| service := new_service; sockets := []; timers := []; next_timer := 0%nat;
     console := []; toasts := []; sent := []; calls := [] |}.

(** *** Field updates *)

Definition set_ws (v : option SocketId) (s : Service) : Service :=
  {| ws := v; callbacks := callbacks s; reconnectTimer := reconnectTimer s;
     isIntentionallyClosed := isIntentionallyClosed s |}.

Definition set_callbacks (v : list (option CallbackId)) (s : Service) : Service :=
  {| ws := ws s; callbacks := v; reconnectTimer := reconnectTimer s;
     isIntentionallyClosed := isIntentionallyClosed s |}.

Definition set_reconnectTimer (v : option TimerId) (s : Service) : Service :=
  {| ws := ws s; callbacks := callbacks s; reconnectTimer := v;
     isIntentionallyClosed := isIntentionallyClosed s |}.

Definition set_isIntentionallyClosed (v : bool) (s : Service) : Service :=
  {| ws := ws s; callbacks := callbacks s; reconnectTimer := reconnectTimer s;
     isIntentionallyClosed := v |}.

Definition with_service (f : Service → Service) (w : World) : World :=
  {| service := f (service w); sockets := sockets w; timers := timers w;
     next_timer := next_timer w; console := console w; toasts := toasts w;
     sent := sent w; calls := calls w |}.

Definition with_sockets (v : list ReadyState) (w : World) : World :=
  {| service := service w; sockets := v; timers := timers w;
     next_timer := next_timer w; console := console w; toasts := toasts w;
     sent := sent w; calls := calls w |}.

Definition with_timers (v : list TimerId) (n : TimerId) (w : World) : World :=
  {| service := service w; sockets := sockets w; timers := v;
     next_timer := n; console := console w; toasts := toasts w;
     sent := sent w; calls := calls w |}.

Definition log (line : ConsoleLine) (w : World) : World :=
  {| service := service w; sockets := sockets w; timers := timers w;
     next_timer := next_timer w; console := console w ++ [line];
     toasts := toasts w; sent := sent w; calls := calls w |}.

Definition toast (t : Toast) (w : World) : World :=
  {| service := service w; sockets := sockets w; timers := timers w;
     next_timer := next_timer w; console := console w;
     toasts := toasts w ++ [t]; sent := sent w; calls := calls w |}.

Definition record_sent (sid : SocketId) (frame : string) (w : World) : World :=
  {| service := service w; sockets := sockets w; timers := timers w;
     next_timer := next_timer w; console := console w; toasts := toasts w;
     sent := sent w ++ [(sid, frame)]; calls := calls w |}.

(** The callbacks [cbs] are invoked with [m], in that order. *)
Definition record_calls (cbs : list CallbackId) (m : JsValue)
    (w : World) : World :=
  {| service := service w; sockets := sockets w; timers := timers w;
     next_timer := next_timer w; console := console w; toasts := toasts w;
     sent := sent w; calls := calls w ++ ((λ cb, (cb, m)) <$> cbs) |}.

Definition record_call (cb : CallbackId) (m : JsValue) (w : World)
  : World := record_calls [cb] m w.

Definition put_callbacks (v : list (option CallbackId)) (w : World) : World :=
  with_service (set_callbacks v) w.

(** *** The [Set] operations *)

(** The callbacks in the set, in insertion order. *)
Definition live (entries : list (option CallbackId)) : list CallbackId :=
  omap (λ e, e) entries.

(** [Set.prototype.add]: nothing happens when the value is in the set,
    otherwise it is appended. *)
Definition set_add (cb : CallbackId) (entries : list (option CallbackId))
  : list (option CallbackId) :=
  if decide (Some cb ∈ entries) then entries else entries ++ [Some cb].

(** [Set.prototype.delete]: the first entry holding the value is emptied. *)
Fixpoint set_delete (cb : CallbackId) (entries : list (option CallbackId))
  : list (option CallbackId) :=
  match entries with
  | [] => []
  | e :: entries' =>
      if decide (e = Some cb) then None :: entries'
      else e :: set_delete cb entries'
  end.

(** *** Methods that do not deliver *)

(** [this.ws?.readyState] *)
Definition readyState (w : World) : option ReadyState :=
  sid ← ws (service w); sockets w !! sid.

(** [isConnected()] *)
Definition isConnected (w : World) : bool :=
  bool_decide (readyState w = Some OPEN).

(** [subscribe(callback)]; the handle it returns is [unsubscribe callback]. *)
Definition subscribe (cb : CallbackId) (w : World) : World :=
  put_callbacks (set_add cb (callbacks (service w))) w.

Definition unsubscribe (cb : CallbackId) (w : World) : World :=
  put_callbacks (set_delete cb (callbacks (service w))) w.

(** [reconnect()] *)
Definition reconnect (w : World) : World :=
  if bool_decide (is_Some (reconnectTimer (service w)))
     || isIntentionallyClosed (service w)
  then w
  else
    let tid := next_timer w in
    with_service (set_reconnectTimer (Some tid))
      (with_timers (timers w ++ [tid]) (S tid) (log LogReconnecting w)).

(** [clearTimeout(this.reconnectTimer); this.reconnectTimer = null], under
    [if (this.reconnectTimer)]. *)
Definition clear_reconnectTimer (w : World) : World :=
  match reconnectTimer (service w) with
  | Some tid =>
      with_service (set_reconnectTimer None)
        (with_timers (filter (λ t, t ≠ tid) (timers w)) (next_timer w) w)
  | None => w
  end.

Section methods.
(** Whether [new WebSocket(WS_URL)] succeeds (it throws on a URL it cannot
    accept). *)
Variable WS_URL_accepted : bool.

(** [connect()] *)
Definition connect (w : World) : World :=
  if isConnected w then log LogAlreadyConnected w
  else if WS_URL_accepted then
    let sid := length (sockets w) in
    with_service (set_ws (Some sid)) (with_sockets (sockets w ++ [CONNECTING]) w)
  else reconnect (log ErrConnecting w).

(** The timeout set by [reconnect()] fires. *)
Definition timer_fires (tid : TimerId) (w : World) : World :=
  if decide (tid ∈ timers w) then
    connect (with_service (set_reconnectTimer None)
               (with_timers (filter (λ t, t ≠ tid) (timers w)) (next_timer w) w))
  else w.
End methods.

(** [disconnect()]; [ws.close()] puts the socket in [CLOSING]. *)
Definition disconnect (w : World) : World :=
  let w1 := clear_reconnectTimer (with_service (set_isIntentionallyClosed true) w) in
  match ws (service w1) with
  | Some sid =>
      with_service (set_ws None) (with_sockets (<[sid := CLOSING]> (sockets w1)) w1)
  | None => w1
  end.

(** [send(message)], [frame] being [JSON.stringify(message)]. *)
Definition send (frame : string) (w : World) : World :=
  match ws (service w) with
  | Some sid => if isConnected w then record_sent sid frame w else log ErrNotConnected w
  | None => log ErrNotConnected w
  end.

(** [ws.onopen], for the socket [sid] that became [OPEN]. *)
Definition onopen (sid : SocketId) (w : World) : World :=
  clear_reconnectTimer
    (with_service (set_isIntentionallyClosed false)
       (log LogConnected (with_sockets (<[sid := OPEN]> (sockets w)) w))).

(** [ws.onerror] *)
Definition onerror (w : World) : World := log ErrSocket w.

(** [ws.onclose], for the socket [sid] that became [CLOSED]. *)
Definition onclose (sid : SocketId) (w : World) : World :=
  let w1 := with_service (set_ws None)
              (log LogDisconnected (with_sockets (<[sid := CLOSED]> (sockets w)) w)) in
  if isIntentionallyClosed (service w1) then w1 else reconnect w1.

(** [handleEventMessage(data)] *)
Definition handleEventMessage (d : Event) (w : World) : World :=
  match event_type d with
  | entry => toast (ToastSuccess ("Vehicle entered: " +:+ license_plate d)) w
  | exit => toast (ToastSuccess ("Vehicle exited: " +:+ license_plate d)) w
  | denied => toast (ToastError ("Access denied: " +:+ license_plate d)) w
  end.

(** *** Delivery *)

(** What a subscriber's function may do to the registry while it runs. *)
Inductive Action :=
| CallSubscribe (cb : CallbackId)
| CallUnsubscribe (cb : CallbackId).

(** A subscriber's function: the registry calls it performs when invoked
    with a message, and whether it then raises. *)
Record Callback := {
  actions : JsValue → list Action;
  throws : JsValue → bool
}.

(** How a statement ends: normally, or by raising. *)
Inductive Completion := Normal (w : World) | Thrown (w : World).

Definition perform (a : Action) (w : World) : World :=
  match a with
  | CallSubscribe cb => subscribe cb w
  | CallUnsubscribe cb => unsubscribe cb w
  end.

(** What an action does to the entries of the set. *)
Definition apply_action (es : list (option CallbackId)) (a : Action)
  : list (option CallbackId) :=
  match a with
  | CallSubscribe cb => set_add cb es
  | CallUnsubscribe cb => set_delete cb es
  end.

Section delivery.
(** [JSON.parse] on the frame body; [None] when it raises. *)
Variable JSON_parse : string → option JsValue.
(** The function behind each callback identity. *)
Variable behaviour : CallbackId → Callback.

(** [callback(message)] *)
Definition call (cb : CallbackId) (m : JsValue) (w : World)
  : Completion :=
  let w' := foldl (λ w a, perform a w) (record_call cb m w)
                  (actions (behaviour cb) m) in
  if throws (behaviour cb) m then Thrown w' else Normal w'.

(** [this.callbacks.forEach((callback) => callback(message))], from entry
    [index] on.  The set is read again at every step: entries appended
    during the loop are visited, emptied ones are skipped.  A callback
    that keeps adding entries keeps the loop running, hence [fuel];
    [None] is returned when it runs out. *)
Fixpoint forEach (fuel : nat) (m : JsValue) (index : nat)
    (w : World) : option Completion :=
  match fuel with
  | O => None
  | S fuel' =>
      match callbacks (service w) !! index with
      | None => Some (Normal w)
      | Some None => forEach fuel' m (S index) w
      | Some (Some cb) =>
          match call cb m w with
          | Normal w' => forEach fuel' m (S index) w'
          | Thrown w' => Some (Thrown w')
          end
      end
  end.

(** [ws.onmessage]: everything is inside one [try]; whatever is raised
    there is logged by the [catch].  After the loop the handler reads
    [message.type]: of an envelope it is the declared field, of [null] the
    read raises, of any other value it is not ['event']. *)
Definition onmessage (fuel : nat) (frame : string) (w : World)
  : option World :=
  match JSON_parse frame with
  | None => Some (log ErrParsing w)
  | Some message =>
      match forEach fuel message 0 w with
      | None => None
      | Some (Thrown w') => Some (log ErrParsing w')
      | Some (Normal w') =>
          Some (match message with
                | Envelope m =>
                    match type m with
                    | event => handleEventMessage (data m) w'
                    | _ => w'
                    end
                | JsNull => log ErrParsing w'
                | JsOther _ => w'
                end)
      end
  end.

(** Callbacks that touch no registration but their own: all they may do
    to the registry is to call their own unsubscribe handle. *)
Definition self_only (m : JsValue) : Prop :=
  ∀ cb a, a ∈ actions (behaviour cb) m → a = CallUnsubscribe cb.

(** Callbacks that register nothing while they run. *)
Definition no_subscribe (m : JsValue) : Prop :=
  ∀ cb a, a ∈ actions (behaviour cb) m → ∃ x, a = CallUnsubscribe x.

(** Whether [cb] leaves the registry alone when invoked with [m]. *)
Definition quiet (m : JsValue) (cb : CallbackId) : bool :=
  match actions (behaviour cb) m with [] => true | _ => false end.

(** The entry of a [self_only] callback after its invocation. *)
Definition slot_after (m : JsValue) (e : option CallbackId)
  : option CallbackId :=
  match e with
  | Some cb => if quiet m cb then Some cb else None
  | None => None
  end.

(** The closed form of the loop for [self_only] callbacks: the entries
    left from [rest], the callbacks invoked, and whether one raised. *)
Fixpoint sweep (m : JsValue) (rest : list (option CallbackId))
  : list (option CallbackId) * list CallbackId * bool :=
  match rest with
  | [] => ([], [], false)
  | None :: rest' =>
      let '(es, ds, t) := sweep m rest' in (None :: es, ds, t)
  | Some cb :: rest' =>
      if throws (behaviour cb) m
      then (slot_after m (Some cb) :: rest', [cb], true)
      else let '(es, ds, t) := sweep m rest' in
           (slot_after m (Some cb) :: es, cb :: ds, t)
  end.

(** How often [cb] has been invoked with [m]. *)
Definition received (cb : CallbackId) (m : JsValue) (w : World)
  : nat :=
  length (filter (λ c, c = (cb, m)) (calls w)).

(** What the specification asks of a dispatch: the handler returns, and
    every callback registered when the frame arrives has been invoked
    with the envelope exactly once more. *)
Definition isolates_errors (fuel : nat) (frame : string) (w : World)
  : Prop :=
  ∀ m, JSON_parse frame = Some m →
       ∃ w', onmessage fuel frame w = Some w'
             ∧ ∀ cb, cb ∈ live (callbacks (service w)) →
                     received cb m w' = S (received cb m w).



End delivery.

Definition world_of (c : Completion) : World :=
  match c with Normal w | Thrown w => w end.

(** The registry is well formed when no callback occupies two entries. *)
Definition wf (w : World) : Prop := NoDup (live (callbacks (service w))).


(** The specification's connection states, read off the current socket. *)
Definition Connected (w : World) : Prop := readyState w = Some OPEN.
Definition Connecting (w : World) : Prop := readyState w = Some CONNECTING.

(** What the specification asks of [connect()] in those states: the
    service is as it was and no socket has been created. *)
Definition connect_is_noop (w : World) : Prop :=
  service (connect true w) = service w ∧ sockets (connect true w) = sockets w.

End WebSocketService.

(** ** What the specification asks of a reconciled view *)

(** Ordered by the ordering key: a strictly newer entry stands before an
    older one. *)
Definition ordered_by_key (view : list Event) : Prop :=
  ∀ i j a b, view !! i = Some a → view !! j = Some b →
             more_recent a b = true → (i < j)%nat.

(** Eviction by key: an entry of [prev] that is gone from [view] is not
    newer than any entry that stayed. *)
Definition evicts_oldest (prev view : list Event) : Prop :=
  ∀ x y, x ∈ prev → x ∉ view → y ∈ view → more_recent x y = false.

(** Every pushed [event] envelope carries an identity that is not in the
    view at the moment it arrives. *)
Fixpoint arrivals_fresh (view : list Event) (pushes : list WebSocketMessage)
  : bool :=
  match pushes with
  | [] => true
  | m :: pushes' =>
      (if decide (type m = event)
       then bool_decide (id (data m) ∉ id <$> view) else true)
      && arrivals_fresh (RecentEvents.on_message m view) pushes'
  end.

(** ** Sample data *)

Module Samples.

Definition ev (i : Z) (ts : string) : Event :=
  {| id := i; event_type := entry; license_plate := "ABC123";
     timestamp := ts; camera_location := "Main gate"; confidence := Some 97 |}.

Definition push (e : Event) : WebSocketMessage := {| type := event; data := e |}.

Definition e_0100 := ev 1 "2024-05-01T01:00:00".
Definition e_0600 := ev 6 "2024-05-01T06:00:00".
Definition e_0700 := ev 7 "2024-05-01T07:00:00".
Definition e_0800 := ev 8 "2024-05-01T08:00:00".
Definition e_0900 := ev 9 "2024-05-01T09:00:00".
Definition e_1000 := ev 10 "2024-05-01T10:00:00".
Definition e_1100 := ev 11 "2024-05-01T11:00:00".

Definition sess (i plate : string) (st : Sessions.Status) : Sessions.Session :=
  {| Sessions.id := i; Sessions.vehicle_id := "v-" +:+ i;
     Sessions.plate_number := plate;
     Sessions.entry_time := "2024-05-01T08:00:00"; Sessions.exit_time := None;
     Sessions.duration_minutes := None; Sessions.entry_camera_id := "cam-1";
     Sessions.exit_camera_id := None; Sessions.status := st;
     Sessions.vehicle_details := None; Sessions.entry_confidence := 95;
     Sessions.exit_confidence := None |}.

Definition s_a := sess "a" "ABC123" Sessions.active.
Definition s_a' := sess "a" "ABC123" Sessions.completed.
Definition s_b := sess "b" "XYZ789" Sessions.active.
Definition s_c := sess "c" "JKL456" Sessions.active.

(** The envelope of event 11 as [JSON.parse] returns it. *)
Definition event_11 : WebSocketService.JsValue :=
  WebSocketService.Envelope (push e_1100).

(** A frame parser: one frame is an envelope, two parse to values that are
    no envelopes, anything else is not JSON. *)
Definition parse (frame : string) : option WebSocketService.JsValue :=
  if String.eqb frame "{event 11}" then Some event_11
  else if String.eqb frame "42" then Some (WebSocketService.JsOther "42")
  else if String.eqb frame "null" then Some WebSocketService.JsNull
  else None.

(** Callback 0 raises on every message, callback 2 calls its own
    unsubscribe handle, the others only take the message. *)
Definition behaviour (cb : WebSocketService.CallbackId)
  : WebSocketService.Callback :=
  {| WebSocketService.actions := λ _,
       if decide (cb = 2%nat) then [WebSocketService.CallUnsubscribe 2%nat] else [];
     WebSocketService.throws := λ _, bool_decide (cb = 0%nat) |}.

(** Callbacks 1, 2 and 3 registered, in that order. *)
Definition three_subscribers : WebSocketService.World :=
  WebSocketService.subscribe 3%nat
    (WebSocketService.subscribe 2%nat
       (WebSocketService.subscribe 1%nat WebSocketService.new_world)).

(** Callbacks 1, 0 and 3 registered, in that order. *)
Definition raising_subscriber : WebSocketService.World :=
  WebSocketService.subscribe 3%nat
    (WebSocketService.subscribe 0%nat
       (WebSocketService.subscribe 1%nat WebSocketService.new_world)).



(** [connect()] has been called once and the socket is not open yet. *)
Definition connecting : WebSocketService.World :=
  WebSocketService.connect true WebSocketService.new_world.

(** The socket has opened. *)
Definition connected : WebSocketService.World :=
  WebSocketService.onopen 0%nat connecting.

End Samples.

(** ** hooks/usePagination.ts *)

Module Pagination.

(** The two state cells of the hook.  Page numbers and sizes are integers. *)
Record State := {
  currentPage : Z;
  pageSize : Z
}.

(** [usePagination({ initialPage = 1, initialPageSize = 20, totalItems })] *)
Definition initial (initialPage initialPageSize : option Z) : State :=
  {| currentPage := default 1 initialPage;
     pageSize := default 20 initialPageSize |}.

(** [Math.ceil(a / b)] on integers, for a divisor other than zero (the
    quotient of two counts is taken to be exact).  At [b = 0] the code
    yields [Infinity] or [NaN], which this function does not render: every
    property below that goes through it assumes a positive page size. *)
Definition ceil_div (a b : Z) : Z := - ((- a) / b).

Section hook.
(** The [totalItems] prop of the current render. *)
Variable totalItems : Z.

Definition totalPages (st : State) : Z :=
  Z.max 1 (ceil_div totalItems (pageSize st)).

Definition canGoNext (st : State) : bool := currentPage st <? totalPages st.

Definition startIndex (st : State) : Z := (currentPage st - 1) * pageSize st.
Definition endIndex (st : State) : Z :=
  Z.min (startIndex st + pageSize st) totalItems.

Definition setCurrentPage (page : Z) (st : State) : State :=
  {| currentPage := page; pageSize := pageSize st |}.



Definition nextPage (st : State) : State :=
  if canGoNext st then setCurrentPage (currentPage st + 1) st else st.


Definition goToFirstPage (st : State) : State := setCurrentPage 1 st.

(** The current page is one of the pages. *)
Definition in_range (st : State) : Prop := 1 ≤ currentPage st ≤ totalPages st.

End hook.

End Pagination.

(** ** Sessions.tsx: formatting helpers *)

Module SessionsView.

(** [formatDuration(minutes)], [minutes] an integer or [null].
    [Math.floor(minutes / 60)] is the floored quotient, [%] the remainder
    that takes the sign of the dividend. *)
Definition formatDuration (minutes : option Z) : string :=
  match minutes with
  | None | Some 0 => "N/A"
  | Some minutes =>
      let hours := minutes / 60 in
      let mins := Z.rem minutes 60 in
      if 0 <? hours then pretty hours +:+ "h " +:+ pretty mins +:+ "m"
      else pretty mins +:+ "m"
  end.

(** [formatRelativeTime(timestamp)] as a function of
    [diffMs = now.getTime() - time.getTime()], for a timestamp that parses. *)
Definition formatRelativeTime (diffMs : Z) : string :=
  let diffMins := diffMs / 60000 in
  let diffHours := diffMs / 3600000 in
  let diffDays := diffMs / 86400000 in
  if diffMins <? 1 then "Just now"
  else if diffMins <? 60 then pretty diffMins +:+ "m ago"
  else if diffHours <? 24 then pretty diffHours +:+ "h ago"
  else pretty diffDays +:+ "d ago".

End SessionsView.

(** ** Events.tsx: the live-update handler *)

Module EventsPage.

Inductive BarrierAction :=
  barrier_opened | barrier_denied | barrier_manual | barrier_error.

#[global] Instance BarrierAction_eq_dec : EqDecision BarrierAction.
Proof. solve_decision. Defined.

Record VehicleDetails := {
  owner_name : string;
  vehicle_type : string;
  status : string
}.

(** [interface Event] of the page; [confidence] is carried as an integer
    percentage, the handler does not read it.  The page declares
    [event_type] as ['entry' | 'exit'], but the payload is the one the
    service and the dashboard card read, where it may also be ['denied']:
    it has the three values of [EventType]. *)
Record Event := {
  id : string;
  timestamp : string;
  plate_number : string;
  event_type : EventType;
  camera_id : string;
  confidence : Z;
  vehicle_found : bool;
  barrier_action : BarrierAction;
  processing_time_ms : Z;
  image_path : option string;
  vehicle_details : option VehicleDetails
}.

(** [interface EventStats]; [success_rate] is a ratio the handler copies. *)
Record EventStats := {
  total : Z;
  entries : Z;
  exits : Z;
  denied : Z;
  success_rate : QArith_base.Q
}.

(** The page state the handler writes, and the toasts it has shown. *)
Record State := {
  events : list Event;
  stats : EventStats;
  toasts : list string
}.

Definition kind_text (k : EventType) : string :=
  match k with entry => "entry" | exit => "exit" | _ => "denied" end.

(** [handleNewEvent(event)] *)
Definition handleNewEvent (pageSize : Z) (event : Event) (st : State) : State :=
  let prev := stats st in
  {| events := event :: slice0 (pageSize - 1) (events st);
     stats :=
       {| total := total prev + 1;
          entries := match event_type event with
                     | entry => entries prev + 1 | _ => entries prev end;
          exits := match event_type event with
                   | exit => exits prev + 1 | _ => exits prev end;
          denied := match barrier_action event with
                    | barrier_denied => denied prev + 1
                    | _ => denied prev end;
          success_rate := success_rate prev |};
     toasts := toasts st ++
               ["New " +:+ kind_text (event_type event) +:+ " event: "
                +:+ plate_number event] |}.

Definition run (pageSize : Z) (st : State) (pushed : list Event) : State :=
  foldl (λ st e, handleNewEvent pageSize e st) st pushed.

End EventsPage.

(** ** The service under a sequence of calls and socket events *)

Module ServiceRun.
Import WebSocketService.

(** What can happen to the service: a method is called, a socket or timer
    event fires. *)
Inductive Op :=
| Connect
| Disconnect
| Subscribe (cb : CallbackId)
| Unsubscribe (cb : CallbackId)
| Send (frame : string)
| SocketOpens (sid : SocketId)
| SocketErrors
| SocketCloses (sid : SocketId)
| SocketMessage (fuel : nat) (frame : string)
| TimerFires (tid : TimerId).

Section run.
Variable WS_URL_accepted : bool.
Variable JSON_parse : string → option JsValue.
Variable behaviour : CallbackId → Callback.

Definition apply_op (op : Op) (w : World) : option World :=
  match op with
  | Connect => Some (connect WS_URL_accepted w)
  | Disconnect => Some (disconnect w)
  | Subscribe cb => Some (subscribe cb w)
  | Unsubscribe cb => Some (unsubscribe cb w)
  | Send frame => Some (send frame w)
  | SocketOpens sid => Some (onopen sid w)
  | SocketErrors => Some (onerror w)
  | SocketCloses sid => Some (onclose sid w)
  | SocketMessage fuel frame => onmessage JSON_parse behaviour fuel frame w
  | TimerFires tid => Some (timer_fires WS_URL_accepted tid w)
  end.

Fixpoint run_ops (ops : list Op) (w : World) : option World :=
  match ops with
  | [] => Some w
  | op :: ops' =>
      match apply_op op w with
      | Some w' => run_ops ops' w'
      | None => None
      end
  end.

End run.

(** The pending timeouts are exactly the one the service remembers. *)
Definition timers_tracked (w : World) : Prop :=
  timers w = match reconnectTimer (service w) with
             | Some tid => [tid]
             | None => []
             end.

(** The current socket is one that has been created. *)
Definition ws_exists (w : World) : Prop :=
  ∀ sid, ws (service w) = Some sid → (sid < length (sockets w))%nat.

Definition inv (w : World) : Prop := wf w ∧ timers_tracked w ∧ ws_exists w.

(** Two worlds with the same connection side: sockets, timers and the
    service fields other than the callback set. *)
Definition same_connection (w w' : World) : Prop :=
  sockets w' = sockets w
  ∧ timers w' = timers w
  ∧ next_timer w' = next_timer w
  ∧ ws (service w') = ws (service w)
  ∧ reconnectTimer (service w') = reconnectTimer (service w)
  ∧ isIntentionallyClosed (service w') = isIntentionallyClosed (service w).

(** What one invocation leaves alone: everything but the callback set and
    the record of invocations. *)
Definition call_frame (w w' : World) : Prop :=
  same_connection w w' ∧ console w' = console w ∧ toasts w' = toasts w
  ∧ sent w' = sent w ∧ (wf w → wf w').


End ServiceRun.

(** ** Helper lemmas on the array primitives *)

Section array_lemmas.
Context {A : Type}.
Implicit Types (l : list A) (p : A → bool).

Lemma slice0_nonneg (n : nat) l : slice0 (Z.of_nat n) l = take n l.
Proof.
  unfold slice0.
  destruct (Z.ltb_spec (Z.of_nat n) 0) as [?|_]; [lia|].
  destruct (Z.min_spec (Z.of_nat n) (Z.of_nat (length l))) as [[? ->]|[? ->]].
  - by rewrite Nat2Z.id.
  - rewrite Nat2Z.id, !take_ge; [done|lia..].
Qed.

Lemma slice0_prefix (e : Z) l : ∃ k, slice0 e l = take k l.
Proof. unfold slice0. eauto. Qed.

Lemma slice0_length_le (e : Z) l :
  0 ≤ e → Z.of_nat (length (slice0 e l)) ≤ e.
Proof.
  intros He. rewrite <- (Z2Nat.id e) at 1 by done.
  rewrite slice0_nonneg, length_take. lia.
Qed.

Lemma findIndex_range p l : -1 ≤ findIndex p l < Z.of_nat (length l).
Proof.
  induction l as [|x l IH]; simpl; [lia|].
  destruct (p x); [lia|].
  destruct (Z.ltb_spec (findIndex p l) 0); lia.
Qed.

(** A non-negative result points at the first element satisfying [p]. *)
Lemma findIndex_found p l :
  0 ≤ findIndex p l →
  ∃ x, l !! Z.to_nat (findIndex p l) = Some x ∧ p x = true.
Proof.
  induction l as [|x l IH]; simpl; [lia|].
  destruct (p x) eqn:Hp; [intros _; exists x; by split|].
  destruct (Z.ltb_spec (findIndex p l) 0) as [?|Hge]; [lia|].
  intros _. destruct (IH Hge) as (y & Hy & Hpy).
  exists y. split; [|done].
  replace (Z.to_nat (findIndex p l + 1)) with (S (Z.to_nat (findIndex p l))) by lia.
  done.
Qed.

(** A negative result means that no element satisfies [p]. *)
Lemma findIndex_absent p l :
  findIndex p l < 0 → ∀ x, x ∈ l → p x = false.
Proof.
  induction l as [|y l IH]; simpl; intros Hneg x Hx.
  - by apply elem_of_nil in Hx.
  - destruct (p y) eqn:Hp; [lia|].
    destruct (Z.ltb_spec (findIndex p l) 0) as [Hlt|?]; [|lia].
    apply elem_of_cons in Hx as [->|Hx]; [done|]. by apply IH.
Qed.

Lemma findIndex_head p x l : p x = true → findIndex p (x :: l) = 0.
Proof. simpl. by intros ->. Qed.

End array_lemmas.

(** ** Properties of the list handlers *)

Section recent_events_lemmas.
Import RecentEvents.

Lemma prepend_take d prev : prepend d prev = d :: take 5 prev.
Proof. unfold prepend. by rewrite (slice0_nonneg 5). Qed.

Lemma reconcile_snoc snapshot pushes m :
  reconcile snapshot (pushes ++ [m]) = on_message m (reconcile snapshot pushes).
Proof. unfold reconcile. by rewrite foldl_app. Qed.

Lemma pushed_events_snoc pushes m :
  pushed_events (pushes ++ [m]) =
  pushed_events pushes ++ (if decide (type m = event) then [data m] else []).
Proof.
  unfold pushed_events. rewrite list.filter_app, fmap_app. f_equal.
  rewrite filter_cons, filter_nil. by destruct (decide _).
Qed.

Lemma on_message_other m prev : type m ≠ event → on_message m prev = prev.
Proof. unfold on_message. by destruct (type m). Qed.

Lemma on_message_event m prev :
  type m = event → on_message m prev = data m :: take 5 prev.
Proof. unfold on_message. intros ->. apply prepend_take. Qed.

(** The view is the pushed payloads, latest arrival first, followed by the
    snapshot, cut to six entries as soon as one payload has arrived. *)
Lemma reconcile_view snapshot pushes :
  reconcile snapshot pushes =
  match pushed_events pushes with
  | [] => snapshot
  | _ => take 6 (reverse (pushed_events pushes) ++ snapshot)
  end.
Proof.
  induction pushes as [|m pushes IH] using rev_ind; [done|].
  rewrite reconcile_snoc, pushed_events_snoc.
  destruct (decide (type m = event)) as [Hm|Hm].
  - rewrite on_message_event by done. rewrite IH.
    destruct (pushed_events pushes) as [|d ds] eqn:Hds; [done|].
    rewrite reverse_app, take_take. by destruct ds.
  - rewrite on_message_other, app_nil_r by done. done.
Qed.

Lemma on_message_length m prev :
  (length prev ≤ 6 → length (on_message m prev) ≤ 6)%nat.
Proof.
  intros Hlen. destruct (decide (type m = event)) as [Hm|Hm].
  - rewrite on_message_event by done. simpl. rewrite length_take. lia.
  - by rewrite on_message_other.
Qed.

Lemma reconcile_length snapshot pushes :
  (length snapshot ≤ 6 → length (reconcile snapshot pushes) ≤ 6)%nat.
Proof.
  intros Hlen. induction pushes as [|m pushes IH] using rev_ind; [done|].
  rewrite reconcile_snoc. by apply on_message_length.
Qed.

Lemma on_message_NoDup m prev :
  NoDup (id <$> prev) →
  (type m = event → id (data m) ∉ id <$> prev) →
  NoDup (id <$> on_message m prev).
Proof.
  intros Hnd Hfresh. destruct (decide (type m = event)) as [Hm|Hm].
  - rewrite on_message_event by done. rewrite fmap_cons, fmap_take.
    apply list.NoDup_cons. split.
    + intros Hin. apply (Hfresh Hm). by eapply subseteq_take.
    + eapply sublist_NoDup; [done|apply sublist_take].
  - by rewrite on_message_other.
Qed.

Lemma run_snoc st ts t : run st (ts ++ [t]) = step (run st ts) t.
Proof. unfold run. by rewrite foldl_app. Qed.

End recent_events_lemmas.

Section sessions_lemmas.
Import Sessions.

Lemma same_id_true session s : same_id session s = true ↔ id s = id session.
Proof. unfold same_id. apply String.eqb_eq. Qed.

Lemma same_id_refl s : same_id s s = true.
Proof. by apply same_id_true. Qed.

Lemma handleSessionUpdate_found pageSize session prev :
  0 ≤ findIndex (same_id session) prev →
  handleSessionUpdate pageSize session prev =
  <[Z.to_nat (findIndex (same_id session) prev) := session]> prev.
Proof.
  intros H. unfold handleSessionUpdate.
  by destruct (Z.leb_spec 0 (findIndex (same_id session) prev)); [|lia].
Qed.

Lemma handleSessionUpdate_absent pageSize session prev :
  findIndex (same_id session) prev < 0 →
  handleSessionUpdate pageSize session prev =
  session :: slice0 (pageSize - 1) prev.
Proof.
  intros H. unfold handleSessionUpdate.
  by destruct (Z.leb_spec 0 (findIndex (same_id session) prev)); [lia|].
Qed.

Lemma findIndex_insert_same {A} (p : A → bool) (l : list A) (s : A) :
  p s = true → 0 ≤ findIndex p l →
  findIndex p (<[Z.to_nat (findIndex p l) := s]> l) = findIndex p l.
Proof.
  intros Hs. induction l as [|x l IH]; simpl; [lia|].
  destruct (p x) eqn:Hx.
  - intros _. simpl. by rewrite Hs.
  - destruct (Z.ltb_spec (findIndex p l) 0) as [?|Hge]; [lia|]. intros _.
    replace (Z.to_nat (findIndex p l + 1)) with (S (Z.to_nat (findIndex p l))) by lia.
    simpl. rewrite Hx, (IH Hge).
    by destruct (Z.ltb_spec (findIndex p l) 0); [lia|].
Qed.

Lemma handleSessionUpdate_idempotent pageSize session prev :
  handleSessionUpdate pageSize session (handleSessionUpdate pageSize session prev)
  = handleSessionUpdate pageSize session prev.
Proof.
  destruct (Z.le_gt_cases 0 (findIndex (same_id session) prev)) as [Hge|Hlt].
  - rewrite (handleSessionUpdate_found _ _ prev) by done.
    rewrite handleSessionUpdate_found;
      rewrite findIndex_insert_same by (done || apply same_id_refl); [|done].
    apply list_insert_insert_eq.
  - rewrite (handleSessionUpdate_absent _ _ prev) by lia.
    rewrite handleSessionUpdate_found;
      rewrite findIndex_head by apply same_id_refl; done.
Qed.

Lemma handleSessionUpdate_NoDup pageSize session prev :
  NoDup (id <$> prev) → NoDup (id <$> handleSessionUpdate pageSize session prev).
Proof.
  intros Hnd.
  destruct (Z.le_gt_cases 0 (findIndex (same_id session) prev)) as [Hge|Hlt].
  - rewrite handleSessionUpdate_found by done.
    destruct (findIndex_found _ _ Hge) as (x & Hx & Hp).
    apply same_id_true in Hp.
    rewrite list_fmap_insert, list_insert_id; [done|].
    by rewrite list_lookup_fmap, Hx, <- Hp.
  - rewrite handleSessionUpdate_absent by lia.
    destruct (slice0_prefix (pageSize - 1) prev) as [k ->].
    rewrite fmap_cons, fmap_take. apply list.NoDup_cons. split.
    + intros Hin. apply subseteq_take in Hin.
      apply list_elem_of_fmap in Hin as (x & Hid & Hx).
      assert (findIndex (same_id session) prev < 0) as Hneg by lia.
      pose proof (findIndex_absent _ _ Hneg x Hx) as Hf.
      symmetry in Hid. apply same_id_true in Hid. congruence.
    + eapply sublist_NoDup; [done|apply sublist_take].
Qed.

Lemma handleSessionUpdate_length pageSize session prev :
  1 ≤ pageSize → Z.of_nat (length prev) ≤ pageSize →
  Z.of_nat (length (handleSessionUpdate pageSize session prev)) ≤ pageSize.
Proof.
  intros Hps Hlen.
  destruct (Z.le_gt_cases 0 (findIndex (same_id session) prev)) as [Hge|Hlt].
  - rewrite handleSessionUpdate_found by done. by rewrite length_insert.
  - rewrite handleSessionUpdate_absent by lia. simpl.
    pose proof (slice0_length_le (pageSize - 1) prev). lia.
Qed.

Lemma sessions_reconcile_snoc pageSize snapshot pushes s :
  reconcile pageSize snapshot (pushes ++ [s]) =
  handleSessionUpdate pageSize s (reconcile pageSize snapshot pushes).
Proof. unfold reconcile. by rewrite foldl_app. Qed.

End sessions_lemmas.

(** ** Properties of the subscription registry *)

Section registry_lemmas.
Import WebSocketService.
Implicit Types (es visited rest : list (option CallbackId)) (cb : CallbackId).
Implicit Types (w : World) (m : JsValue).

(** *** Field updates *)

Lemma put_callbacks_put es es' w :
  put_callbacks es (put_callbacks es' w) = put_callbacks es w.
Proof. reflexivity. Qed.

Lemma put_callbacks_id w : put_callbacks (callbacks (service w)) w = w.
Proof. by destruct w as [[] ? ? ? ? ? ? ?]. Qed.

Lemma record_calls_nil m w : record_calls [] m w = w.
Proof. destruct w. unfold record_calls. simpl. by rewrite app_nil_r. Qed.

Lemma record_calls_cons cb cbs m w :
  record_calls cbs m (record_call cb m w) = record_calls (cb :: cbs) m w.
Proof.
  unfold record_call, record_calls. simpl. f_equal. by rewrite <- app_assoc.
Qed.

(** *** The set *)

Lemma elem_of_live cb es : cb ∈ live es ↔ Some cb ∈ es.
Proof.
  unfold live. rewrite list_elem_of_omap. split.
  - by intros (e & He & ->).
  - intros H. by exists (Some cb).
Qed.

Lemma live_app es1 es2 : live (es1 ++ es2) = live es1 ++ live es2.
Proof. apply omap_app. Qed.

Lemma set_delete_length cb es : length (set_delete cb es) = length es.
Proof.
  induction es as [|e es IH]; [done|]. simpl.
  destruct (decide (e = Some cb)); simpl; by rewrite ?IH.
Qed.

Lemma set_delete_absent cb es : Some cb ∉ es → set_delete cb es = es.
Proof.
  induction es as [|e es IH]; [done|]. intros Hn. simpl.
  apply not_elem_of_cons in Hn as [Hne Hn].
  destruct (decide (e = Some cb)); [congruence|]. by rewrite IH.
Qed.

Lemma set_delete_app cb visited rest :
  Some cb ∉ visited →
  set_delete cb (visited ++ rest) = visited ++ set_delete cb rest.
Proof.
  induction visited as [|e visited IH]; [done|]. intros Hn. simpl.
  apply not_elem_of_cons in Hn as [Hne Hn].
  destruct (decide (e = Some cb)); [congruence|]. by rewrite IH.
Qed.

Lemma set_delete_head cb rest : set_delete cb (Some cb :: rest) = None :: rest.
Proof. simpl. by rewrite decide_True. Qed.

(** Deleting never adds: what is in the set from entry [k] on was there
    before. *)
Lemma live_drop_set_delete cb es k :
  live (drop k (set_delete cb es)) `sublist_of` live (drop k es).
Proof.
  revert k. induction es as [|e es IH]; intros k; [done|]. simpl.
  destruct (decide (e = Some cb)) as [->|Hne].
  - destruct k; simpl; [|done]. by apply sublist_cons.
  - destruct k; simpl; [|apply IH].
    specialize (IH 0%nat). rewrite !drop_0 in IH.
    destruct e; simpl; [by apply sublist_skip|done].
Qed.

Lemma live_set_delete_sublist cb es :
  live (set_delete cb es) `sublist_of` live es.
Proof. pose proof (live_drop_set_delete cb es 0) as H. by rewrite !drop_0 in H. Qed.

Lemma NoDup_live_cons cb es :
  NoDup (live (Some cb :: es)) → (Some cb ∉ es) ∧ NoDup (live es).
Proof.
  simpl. intros H. apply list.NoDup_cons in H as [Hn Hnd]. split; [|done].
  by rewrite <- elem_of_live.
Qed.

Lemma NoDup_live_tail e es : NoDup (live (e :: es)) → NoDup (live es).
Proof.
  destruct e; simpl; [|done]. intros H. by apply list.NoDup_cons in H as [_ ?].
Qed.

(** In a well-formed set, deleting a value a second time changes nothing. *)
Lemma set_delete_twice cb es :
  NoDup (live es) → set_delete cb (set_delete cb es) = set_delete cb es.
Proof.
  induction es as [|e es IH]; [done|]. intros Hnd. simpl.
  destruct (decide (e = Some cb)) as [->|Hne].
  - apply NoDup_live_cons in Hnd as [Hn _]. simpl.
    by rewrite set_delete_absent.
  - simpl. rewrite decide_False by done. f_equal.
    apply IH. by eapply NoDup_live_tail.
Qed.

Lemma set_delete_gone cb es :
  NoDup (live es) → Some cb ∉ set_delete cb es.
Proof.
  induction es as [|e es IH]; intros Hnd; simpl.
  - apply not_elem_of_nil.
  - destruct (decide (e = Some cb)) as [->|Hne].
    + apply NoDup_live_cons in Hnd as [Hn _].
      apply not_elem_of_cons. by split.
    + apply not_elem_of_cons. split; [congruence|].
      apply IH. by eapply NoDup_live_tail.
Qed.




Lemma live_set_add cb es :
  live (set_add cb es) = if decide (Some cb ∈ es) then live es else live es ++ [cb].
Proof.
  unfold set_add. destruct (decide (Some cb ∈ es)); [done|].
  by rewrite live_app.
Qed.

(** *** Well-formedness is an invariant of the registry *)

Lemma wf_new_world : wf new_world.
Proof. apply NoDup_nil_2. Qed.

Lemma wf_subscribe cb w : wf w → wf (subscribe cb w).
Proof.
  unfold wf, subscribe. simpl. intros Hnd. rewrite live_set_add.
  destruct (decide (Some cb ∈ callbacks (service w))) as [|Hn]; [done|].
  apply list.NoDup_app. split_and!; [done| |apply NoDup_singleton].
  intros x Hx ->%list_elem_of_singleton. by apply elem_of_live in Hx.
Qed.

Lemma wf_unsubscribe cb w : wf w → wf (unsubscribe cb w).
Proof.
  unfold wf, unsubscribe. simpl. intros Hnd.
  eapply sublist_NoDup; [done|apply live_set_delete_sublist].
Qed.

Lemma wf_perform a w : wf w → wf (perform a w).
Proof. destruct a; [apply wf_subscribe|apply wf_unsubscribe]. Qed.

End registry_lemmas.

Section delivery_lemmas.
Import WebSocketService.
Variable JSON_parse : string → option JsValue.
Variable behaviour : CallbackId → Callback.
Implicit Types (es visited rest : list (option CallbackId)) (cb : CallbackId).
Implicit Types (w : World) (m : JsValue).

(** *** One invocation *)

Lemma perform_eq a w :
  perform a w = put_callbacks (apply_action (callbacks (service w)) a) w.
Proof. by destruct a. Qed.

Lemma perform_all acts w :
  foldl (λ w a, perform a w) w acts =
  put_callbacks (foldl apply_action (callbacks (service w)) acts) w.
Proof.
  revert w. induction acts as [|a acts IH]; intros w; simpl.
  - by rewrite put_callbacks_id.
  - by rewrite IH, perform_eq.
Qed.

Lemma call_eq cb m w :
  call behaviour cb m w =
  (if throws (behaviour cb) m then Thrown else Normal)
    (put_callbacks
       (foldl apply_action (callbacks (service w)) (actions (behaviour cb) m))
       (record_call cb m w)).
Proof. unfold call. rewrite perform_all. by destruct (throws _ _). Qed.

Lemma deletes_absent cb es acts :
  (∀ a, a ∈ acts → a = CallUnsubscribe cb) →
  Some cb ∉ es → foldl apply_action es acts = es.
Proof.
  intros Hacts Hn. induction acts as [|a acts IH]; [done|]. simpl.
  rewrite (Hacts a) by left. simpl. rewrite set_delete_absent by done.
  apply IH. intros b Hb. apply Hacts. by right.
Qed.

Lemma self_actions m cb visited rest :
  self_only behaviour m →
  Some cb ∉ visited → Some cb ∉ rest →
  foldl apply_action (visited ++ Some cb :: rest) (actions (behaviour cb) m)
  = visited ++ slot_after behaviour m (Some cb) :: rest.
Proof.
  intros Hself Hv Hr. unfold slot_after, quiet.
  pose proof (Hself cb) as Hcb.
  destruct (actions (behaviour cb) m) as [|a acts]; [done|]. simpl.
  rewrite (Hcb a) by left. simpl.
  rewrite set_delete_app, set_delete_head by done.
  apply (deletes_absent cb).
  - intros b Hb. apply Hcb. by right.
  - intros [H|H]%elem_of_app; [done|].
    apply elem_of_cons in H as [H|H]; [done|by apply Hr].
Qed.

Lemma NoDup_live_middle cb visited rest :
  NoDup (live (visited ++ Some cb :: rest)) →
  (Some cb ∉ visited) ∧ (Some cb ∉ rest).
Proof.
  rewrite live_app. simpl. intros (_ & Hdisj & Hr)%list.NoDup_app.
  apply list.NoDup_cons in Hr as [Hr _]. split.
  - intros Hin%elem_of_live. apply (Hdisj _ Hin). by left.
  - by rewrite <- elem_of_live.
Qed.

Lemma NoDup_live_slot m e visited rest :
  NoDup (live (visited ++ e :: rest)) →
  NoDup (live (visited ++ slot_after behaviour m e :: rest)).
Proof.
  intros Hnd.
  eapply sublist_NoDup; [exact Hnd|].
  rewrite !live_app. apply sublist_app; [done|].
  destruct e as [cb|]; simpl; [|done].
  destruct (quiet behaviour m cb); simpl; [done|]. by apply sublist_cons.
Qed.

(** *** The loop, for callbacks that touch no registration but their own *)

Lemma forEach_sweep m :
  self_only behaviour m →
  ∀ rest visited w fuel es ds t,
    sweep behaviour m rest = (es, ds, t) →
    callbacks (service w) = visited ++ rest →
    NoDup (live (visited ++ rest)) →
    (length rest < fuel)%nat →
    forEach behaviour fuel m (length visited) w =
    Some ((if t then Thrown else Normal)
            (put_callbacks (visited ++ es) (record_calls ds m w))).
Proof.
  intros Hself. induction rest as [|e rest IH];
    intros visited w fuel es ds t Hsw Hcb Hnd Hfuel;
    (destruct fuel as [|fuel]; [simpl in Hfuel; lia|]); simpl; rewrite Hcb.
  - rewrite lookup_ge_None_2 by (rewrite length_app; simpl; lia).
    simpl in Hsw. injection Hsw as <- <- <-.
    by rewrite record_calls_nil, <- Hcb, put_callbacks_id.
  - rewrite list_lookup_middle by done.
    simpl in Hfuel. destruct e as [cb|].
    + rewrite call_eq, Hcb.
      destruct (NoDup_live_middle _ _ _ Hnd) as [Hv Hr].
      rewrite self_actions by done.
      simpl in Hsw. destruct (throws (behaviour cb) m).
      * by injection Hsw as <- <- <-.
      * destruct (sweep behaviour m rest) as [[es' ds'] t'] eqn:Hrest.
        injection Hsw as <- <- <-.
        set (slot := slot_after behaviour m (Some cb)).
        set (w1 := put_callbacks (visited ++ slot :: rest) (record_call cb m w)).
        specialize (IH (visited ++ [slot]) w1 fuel es' ds' t' eq_refl).
        rewrite length_app, Nat.add_1_r, <- !app_assoc in IH.
        rewrite IH; [|done|by apply (NoDup_live_slot m (Some cb))|lia].
        unfold w1. simpl.
        change (record_calls ds' m (put_callbacks ?a ?b))
          with (put_callbacks a (record_calls ds' m b)).
        by rewrite put_callbacks_put, record_calls_cons.
    + simpl in Hsw.
      destruct (sweep behaviour m rest) as [[es' ds'] t'] eqn:Hrest.
      injection Hsw as <- <- <-.
      specialize (IH (visited ++ [None]) w fuel es' ds' t' eq_refl).
      rewrite length_app, Nat.add_1_r, <- !app_assoc in IH.
      apply IH; [by rewrite Hcb| |lia].
      by apply (NoDup_live_slot m None) in Hnd.
Qed.

(** *** What the closed form delivers *)

Lemma live_slot_after m rest :
  live (slot_after behaviour m <$> rest) = filter (λ cb, quiet behaviour m cb = true) (live rest).
Proof.
  induction rest as [|[cb|] rest IH]; simpl; [done| |done].
  rewrite filter_cons. destruct (quiet behaviour m cb) eqn:Hq; simpl.
  - f_equal. exact IH.
  - exact IH.
Qed.

(** When nobody raises, every callback in the set is invoked. *)
Lemma sweep_no_throw m rest :
  (∀ cb, Some cb ∈ rest → throws (behaviour cb) m = false) →
  sweep behaviour m rest = (slot_after behaviour m <$> rest, live rest, false).
Proof.
  induction rest as [|[cb|] rest IH]; intros Hno; simpl; [done| |].
  - rewrite (Hno cb) by left. rewrite IH; [done|].
    intros c Hc. apply Hno. by right.
  - rewrite IH; [done|]. intros c Hc. apply Hno. by right.
Qed.

(** When [c] is the first to raise, it is the last to be invoked. *)
Lemma sweep_throw m rest pre c post :
  live rest = pre ++ c :: post →
  (∀ cb, cb ∈ pre → throws (behaviour cb) m = false) →
  throws (behaviour c) m = true →
  ∃ es, sweep behaviour m rest = (es, pre ++ [c], true).
Proof.
  revert pre. induction rest as [|[cb|] rest IH]; intros pre Hlive Hpre Hc; simpl in *.
  - by destruct pre.
  - destruct pre as [|p pre]; simpl in Hlive; injection Hlive as -> Hlive.
    + rewrite Hc. eauto.
    + rewrite (Hpre p) by left.
      destruct (IH pre Hlive) as [es Hes]; [|done|].
      { intros x Hx. apply Hpre. by right. }
      rewrite Hes. eauto.
  - destruct (IH pre Hlive Hpre Hc) as [es Hes]. rewrite Hes. eauto.
Qed.

(** *** The loop, for callbacks that register nothing while they run *)

Lemma unsubscribe_actions es acts :
  (∀ a, a ∈ acts → ∃ x, a = CallUnsubscribe x) →
  length (foldl apply_action es acts) = length es
  ∧ ∀ k, live (drop k (foldl apply_action es acts)) `sublist_of` live (drop k es).
Proof.
  revert es. induction acts as [|a acts IH]; intros es Hacts; simpl; [done|].
  destruct (Hacts a) as [x ->]; [by left|]. simpl.
  destruct (IH (set_delete x es)) as [Hlen Hsub].
  { intros b Hb. apply Hacts. by right. }
  split; [by rewrite Hlen, set_delete_length|].
  intros k. etrans; [apply Hsub|apply live_drop_set_delete].
Qed.

(** With enough fuel the loop ends, and the callbacks it has invoked are,
    in order, among those the set held from entry [i] on. *)
Lemma forEach_no_subscribe m :
  no_subscribe behaviour m →
  ∀ fuel i w,
    (length (callbacks (service w)) - i < fuel)%nat →
    ∃ c ds,
      forEach behaviour fuel m i w = Some c
      ∧ calls (world_of c) = calls w ++ ((λ cb, (cb, m)) <$> ds)
      ∧ ds `sublist_of` live (drop i (callbacks (service w))).
Proof.
  intros Hno. induction fuel as [|fuel IH]; intros i w Hfuel; [lia|]. simpl.
  destruct (callbacks (service w) !! i) as [[cb|]|] eqn:Hi.
  - rewrite call_eq.
    destruct (unsubscribe_actions (callbacks (service w))
                (actions (behaviour cb) m) (Hno cb)) as [Hlen Hsub].
    set (w1 := put_callbacks _ _).
    rewrite (drop_S _ _ _ Hi). simpl.
    destruct (throws (behaviour cb) m).
    + exists (Thrown w1), [cb]. split_and!; [done|done|].
      apply sublist_skip, sublist_nil_l.
    + destruct (IH (S i) w1) as (c & ds & Hrun & Hcalls & Hds).
      { unfold w1. simpl. rewrite Hlen.
        apply lookup_lt_Some in Hi. lia. }
      exists c, (cb :: ds). split_and!; [done| |].
      * rewrite Hcalls. unfold w1. simpl. by rewrite <- app_assoc.
      * apply sublist_skip. etrans; [exact Hds|]. apply Hsub.
  - destruct (IH (S i) w) as (c & ds & Hrun & Hcalls & Hds).
    { apply lookup_lt_Some in Hi. lia. }
    exists c, ds. split_and!; [done|done|].
    by rewrite (drop_S _ _ _ Hi).
  - exists (Normal w), []. split_and!; [done| |apply sublist_nil_l].
    simpl. by rewrite app_nil_r.
Qed.

(** *** Counting invocations *)

Lemma received_after cb m w w' ds :
  calls w' = calls w ++ ((λ x, (x, m)) <$> ds) →
  received cb m w' = (received cb m w + length (filter (λ x, x = cb) ds))%nat.
Proof.
  intros Hcalls. unfold received. rewrite Hcalls, list.filter_app, length_app.
  f_equal. clear Hcalls. induction ds as [|x ds IH]; [done|].
  rewrite fmap_cons, !filter_cons.
  destruct (decide (x = cb)) as [->|Hne].
  - rewrite decide_True by done. simpl. by rewrite IH.
  - rewrite decide_False by congruence. done.
Qed.

Lemma count_absent cb (ds : list CallbackId) :
  cb ∉ ds → length (filter (λ x, x = cb) ds) = 0%nat.
Proof.
  induction ds as [|x ds IH]; [done|]. intros [Hne Hn]%not_elem_of_cons.
  rewrite filter_cons, decide_False by done. by apply IH.
Qed.


Lemma count_NoDup_elem cb (ds : list CallbackId) :
  NoDup ds → cb ∈ ds → length (filter (λ x, x = cb) ds) = 1%nat.
Proof.
  induction 1 as [|x ds Hx Hnd IH]; intros Hin.
  - by apply elem_of_nil in Hin.
  - rewrite filter_cons. destruct (decide (x = cb)) as [->|Hne].
    + simpl. by rewrite count_absent.
    + apply elem_of_cons in Hin as [->|Hin]; [done|]. by apply IH.
Qed.

Lemma samples_self_only m : self_only Samples.behaviour m.
Proof.
  intros cb a. simpl. destruct (decide (cb = 2%nat)) as [->|_].
  - by intros ->%list_elem_of_singleton.
  - by intros ?%elem_of_nil.
Qed.

End delivery_lemmas.

(** ** The reconciled list: claims *)

(** C1 (counterexample).  The recent-events handler prepends the arriving
    payload without looking for an entry of the same identity: from the
    snapshot holding event 10, a push that carries event 10 yields a view
    with two entries of identity 10. *)
Lemma recent_events_duplicate_identity :
  ¬ NoDup (id <$> RecentEvents.reconcile [Samples.e_1000]
                    [Samples.push Samples.e_1000]).
Proof. intros H. apply NoDup_cons_1_1 in H. apply H. vm_compute. left. Qed.

(** C1.  From a snapshot without duplicate identities, the sessions list
    never holds two entries of one identity, whatever is pushed (an envelope
    carrying a present identity replaces that entry in place); the
    recent-events list holds no two entries of one identity as long as each
    arriving event envelope carries an identity that is not in the view
    when it arrives. *)
Theorem no_duplicate_identity
    (pageSize : Z) (snapS pushS : list Sessions.Session)
    (snapE : list Event) (pushE : list WebSocketMessage) :
  NoDup (Sessions.id <$> snapS) →
  NoDup (id <$> snapE) →
  arrivals_fresh snapE pushE = true →
  NoDup (Sessions.id <$> Sessions.reconcile pageSize snapS pushS)
  ∧ NoDup (id <$> RecentEvents.reconcile snapE pushE).
Proof.
  intros HS HE Hfresh. split.
  - induction pushS as [|s pushS IH] using rev_ind; [done|].
    rewrite sessions_reconcile_snoc. by apply handleSessionUpdate_NoDup.
  - clear HS. revert snapE HE Hfresh.
    induction pushE as [|m pushE IH]; intros snapE HE Hfresh; [done|].
    simpl in Hfresh. apply andb_true_iff in Hfresh as [Hm Hrest].
    change (RecentEvents.reconcile snapE (m :: pushE))
      with (RecentEvents.reconcile (RecentEvents.on_message m snapE) pushE).
    apply IH; [|done].
    apply on_message_NoDup; [done|]. intros Hty.
    destruct (decide (type m = event)); [|done].
    by apply bool_decide_eq_true in Hm.
Qed.

Lemma no_duplicate_identity_witness :
  NoDup (Sessions.id <$> Sessions.reconcile 2 [Samples.s_a; Samples.s_b]
                           [Samples.s_a'; Samples.s_c])
  ∧ NoDup (id <$> RecentEvents.reconcile [Samples.e_1000; Samples.e_0900]
                    [Samples.push Samples.e_1100]).
Proof.
  apply (no_duplicate_identity 2 [Samples.s_a; Samples.s_b]
           [Samples.s_a'; Samples.s_c] [Samples.e_1000; Samples.e_0900]
           [Samples.push Samples.e_1100]).
  - apply (bool_decide_unpack _). vm_compute. reflexivity.
  - apply (bool_decide_unpack _). vm_compute. reflexivity.
  - reflexivity.
Defined.

(** C2 (counterexample).  A push that carries an older event than the one
    in the view is placed before it. *)
Lemma recent_events_not_ordered_by_key :
  ¬ ordered_by_key (RecentEvents.reconcile [Samples.e_1000]
                      [Samples.push Samples.e_0900]).
Proof.
  intros H.
  specialize (H 1%nat 0%nat Samples.e_1000 Samples.e_0900 eq_refl eq_refl eq_refl).
  lia.
Qed.

(** C2.  The recent-events view is ordered by arrival, not by timestamp:
    once an event envelope has arrived it is the pushed payloads, latest
    arrival first, followed by the snapshot in the order it was fetched,
    cut to six entries; with no event envelope it is the snapshot. *)
Theorem recent_events_arrival_order
    (snapshot : list Event) (pushes : list WebSocketMessage) :
  RecentEvents.reconcile snapshot pushes =
  match RecentEvents.pushed_events pushes with
  | [] => snapshot
  | _ => take 6 (reverse (RecentEvents.pushed_events pushes) ++ snapshot)
  end.
Proof. apply reconcile_view. Qed.

(** C3 (counterexample).  A full view whose head is an old event (it was
    pushed late) receives a new event: the entry dropped is the one in the
    last position, of 06:00, while the entry of 01:00 stays. *)
Lemma recent_events_evicts_last_not_oldest :
  let prev := [Samples.e_0100; Samples.e_1000; Samples.e_0900;
               Samples.e_0800; Samples.e_0700; Samples.e_0600] in
  ¬ evicts_oldest prev (RecentEvents.on_message (Samples.push Samples.e_1100) prev).
Proof.
  intros prev H.
  assert (more_recent Samples.e_0600 Samples.e_0100 = false) as Hc; [|done].
  apply (H Samples.e_0600 Samples.e_0100).
  - apply (bool_decide_unpack _). vm_compute. reflexivity.
  - apply (bool_decide_unpack _). vm_compute. reflexivity.
  - apply (bool_decide_unpack _). vm_compute. reflexivity.
Qed.

(** C3.  A sessions list seeded with at most [pageSize] entries
    ([pageSize] at least 1) never exceeds [pageSize], and a recent-events
    list seeded with at most six entries never exceeds six.  An insertion
    keeps the entries at the first positions of the previous list, moved
    down by one, and drops those at the last positions, whatever their
    ordering keys. *)
Theorem capacity_positional_eviction
    (pageSize : Z) (snapS pushS : list Sessions.Session)
    (snapE : list Event) (pushE : list WebSocketMessage) :
  1 ≤ pageSize →
  Z.of_nat (length snapS) ≤ pageSize →
  (length snapE ≤ 6)%nat →
  Z.of_nat (length (Sessions.reconcile pageSize snapS pushS)) ≤ pageSize
  ∧ (length (RecentEvents.reconcile snapE pushE) ≤ 6)%nat
  ∧ (∀ d prev i,
       RecentEvents.prepend d prev !! S i =
       if decide (i < 5)%nat then prev !! i else None)
  ∧ (∀ s prev i,
       findIndex (Sessions.same_id s) prev < 0 →
       Sessions.handleSessionUpdate pageSize s prev !! S i =
       if decide (Z.of_nat i < pageSize - 1) then prev !! i else None).
Proof.
  intros Hps HlenS HlenE. repeat split.
  - induction pushS as [|s pushS IH] using rev_ind; [done|].
    rewrite sessions_reconcile_snoc. by apply handleSessionUpdate_length.
  - by apply reconcile_length.
  - intros d prev i. rewrite prepend_take. simpl.
    destruct (decide (i < 5)%nat).
    + by apply lookup_take_lt.
    + apply lookup_take_ge. lia.
  - intros s prev i Habs. rewrite handleSessionUpdate_absent by done. simpl.
    rewrite <- (Z2Nat.id (pageSize - 1)) by lia.
    rewrite slice0_nonneg.
    destruct (decide (Z.of_nat i < Z.of_nat (Z.to_nat (pageSize - 1)))).
    + apply lookup_take_lt. lia.
    + apply lookup_take_ge. lia.
Qed.

Lemma capacity_positional_eviction_witness :
  Z.of_nat (length (Sessions.reconcile 2 [Samples.s_a; Samples.s_b]
                      [Samples.s_a'; Samples.s_c])) ≤ 2
  ∧ (length (RecentEvents.reconcile [Samples.e_1000; Samples.e_0900]
               [Samples.push Samples.e_1100]) ≤ 6)%nat
  ∧ Sessions.handleSessionUpdate 2 Samples.s_c [Samples.s_a; Samples.s_b] !! 1%nat
    = Some Samples.s_a
  ∧ Sessions.handleSessionUpdate 2 Samples.s_c [Samples.s_a; Samples.s_b] !! 2%nat
    = None.
Proof.
  pose proof (capacity_positional_eviction 2 [Samples.s_a; Samples.s_b]
                [Samples.s_a'; Samples.s_c] [Samples.e_1000; Samples.e_0900]
                [Samples.push Samples.e_1100]) as H.
  destruct H as (H1 & H2 & _ & H4).
  - lia.
  - simpl. lia.
  - simpl. lia.
  - split; [exact H1|]. split; [exact H2|]. split.
    + etrans; [apply H4; reflexivity|]. vm_compute. reflexivity.
    + etrans; [apply H4; reflexivity|]. vm_compute. reflexivity.
Defined.

(** C4 (counterexample).  Delivered twice to the recent-events handler, an
    envelope is in the view twice: the second application changes the view
    reached by the first. *)
Lemma recent_events_not_idempotent :
  let m := Samples.push Samples.e_1100 in
  RecentEvents.on_message m (RecentEvents.on_message m [Samples.e_1000])
  ≠ RecentEvents.on_message m [Samples.e_1000].
Proof. intros m. vm_compute. discriminate. Qed.

(** C4.  Applying the same session envelope twice in succession to the
    sessions list gives the view that applying it once gives.  In the
    recent-events list the second application prepends the payload once
    more, ahead of the first copy and of the first four earlier entries. *)
Theorem repeated_envelope
    (pageSize : Z) (session : Sessions.Session) (prevS : list Sessions.Session)
    (d : Event) (prevE : list Event) :
  Sessions.handleSessionUpdate pageSize session
    (Sessions.handleSessionUpdate pageSize session prevS)
  = Sessions.handleSessionUpdate pageSize session prevS
  ∧ RecentEvents.prepend d (RecentEvents.prepend d prevE)
    = d :: d :: take 4 prevE.
Proof.
  split; [apply handleSessionUpdate_idempotent|].
  rewrite !prepend_take. simpl. by rewrite take_take.
Qed.

(** C7 (counterexample).  The card is refetching while event 11 is pushed;
    the response, computed before that event, holds events 10 and 9.  When
    it arrives the view is the response, and event 11 is gone. *)
Lemma push_during_refetch_lost :
  let m := Samples.push Samples.e_1100 in
  let st := RecentEvents.run RecentEvents.initial
              [RecentEvents.FetchStart; RecentEvents.Push m;
               RecentEvents.FetchResolve (Some [Samples.e_1000; Samples.e_0900])] in
  data m ∈ RecentEvents.events
             (RecentEvents.run RecentEvents.initial
                [RecentEvents.FetchStart; RecentEvents.Push m])
  ∧ data m ∉ RecentEvents.events st.
Proof.
  split.
  - apply (bool_decide_unpack _). vm_compute. reflexivity.
  - apply (bool_decide_unpack _). vm_compute. reflexivity.
Qed.

(** C7.  Nothing is buffered.  In the recent-events card an envelope that
    arrives during a refetch is applied to the view at once, and the
    response replaces the view when it arrives, whatever was pushed in
    between: the envelope stays in the view exactly when the response
    holds it.  In the active-sessions card an envelope never enters the
    view; a [session] or [event] envelope only issues one more request, and
    the view is the latest response. *)
Theorem refetch_overwrites_view
    (st : RecentEvents.State) (before during : list RecentEvents.Task)
    (items : option (list Event)) (m : WebSocketMessage)
    (st' : ActiveSessions.State) (ts : list ActiveSessions.Task)
    (items' : option (list ActiveSessions.Session)) :
  let flight := RecentEvents.FetchStart :: during ++ [RecentEvents.FetchResolve items] in
  RecentEvents.events (RecentEvents.run st (before ++ flight)) = default [] items
  ∧ (data m ∈ RecentEvents.events (RecentEvents.run st (before ++ flight))
     ↔ data m ∈ default [] items)
  ∧ ActiveSessions.sessions (ActiveSessions.step st' (ActiveSessions.Push m))
    = ActiveSessions.sessions st'
  ∧ ActiveSessions.requests (ActiveSessions.step st' (ActiveSessions.Push m))
    = (if decide (type m = session ∨ type m = event)
       then S (ActiveSessions.requests st') else ActiveSessions.requests st')
  ∧ ActiveSessions.sessions
      (ActiveSessions.run st' (ts ++ [ActiveSessions.FetchResolve items']))
    = default [] items'.
Proof.
  intros flight.
  assert (RecentEvents.events (RecentEvents.run st (before ++ flight))
          = default [] items) as Hview.
  { unfold flight. rewrite app_comm_cons, app_assoc. by rewrite run_snoc. }
  split; [done|]. split; [by rewrite Hview|].
  split; [|split].
  - simpl. unfold ActiveSessions.on_message. by destruct (type m).
  - simpl. unfold ActiveSessions.on_message.
    destruct (type m);
      (by rewrite decide_True by auto)
      || (by rewrite decide_False by (intros [?|?]; discriminate)).
  - unfold ActiveSessions.run. by rewrite foldl_app.
Qed.

(** ** The push connection and the registry: claims *)

Section service_claims.
Import WebSocketService.

(** C5 (counterexample).  Callbacks 1, 0 and 3 are registered in that
    order and callback 0 raises: callback 3 is never invoked with the
    envelope. *)
Lemma raising_subscriber_blocks_later_ones :
  ¬ isolates_errors Samples.parse Samples.behaviour 4 "{event 11}"
      Samples.raising_subscriber.
Proof.
  intros H. destruct (H Samples.event_11 eq_refl) as (w' & Hrun & Hall).
  vm_compute in Hrun. injection Hrun as <-.
  specialize (Hall 3%nat).
  assert (3%nat ∈ live (callbacks (service Samples.raising_subscriber))) as Hin.
  { apply (bool_decide_unpack _). vm_compute. reflexivity. }
  apply Hall in Hin. vm_compute in Hin. discriminate.
Qed.

(** C5.  The delivery loop and the toast handling sit in one [try]: when
    the callback of a registered subscriber raises, the error is caught and
    logged by that single [catch], the subscribers registered before it and
    the raising one have been invoked with the envelope exactly once, those
    registered after it are not invoked, and the event toast is skipped.
    (Callbacks touching no registration but their own.) *)
Theorem subscriber_error_stops_delivery
    (JSON_parse : string → option JsValue)
    (behaviour : CallbackId → Callback)
    (fuel : nat) (frame : string) (m : JsValue) (w : World)
    (pre : list CallbackId) (c : CallbackId) (post : list CallbackId) :
  JSON_parse frame = Some m →
  self_only behaviour m →
  wf w →
  live (callbacks (service w)) = pre ++ c :: post →
  (∀ cb, cb ∈ pre → throws (behaviour cb) m = false) →
  throws (behaviour c) m = true →
  (length (callbacks (service w)) < fuel)%nat →
  ∃ w', onmessage JSON_parse behaviour fuel frame w = Some w'
        ∧ calls w' = calls w ++ ((λ cb, (cb, m)) <$> (pre ++ [c]))
        ∧ console w' = console w ++ [ErrParsing]
        ∧ toasts w' = toasts w
        ∧ (∀ cb, cb ∈ pre ++ [c] → received cb m w' = S (received cb m w))
        ∧ (∀ cb, cb ∈ post → received cb m w' = received cb m w).
Proof.
  intros Hparse Hself Hwf Hlive Hpre Hc Hfuel.
  destruct (sweep_throw behaviour m _ _ _ _ Hlive Hpre Hc) as [es Hes].
  pose proof (forEach_sweep behaviour m Hself (callbacks (service w)) [] w fuel
                es (pre ++ [c]) true Hes eq_refl Hwf Hfuel) as Hrun.
  simpl in Hrun. unfold onmessage. rewrite Hparse, Hrun.
  eexists. split; [done|]. simpl. split_and!; [done..| |].
  - unfold wf in Hwf. rewrite Hlive in Hwf.
    intros cb Hcb. erewrite received_after by (simpl; done).
    rewrite count_NoDup_elem; [lia| |done].
    eapply sublist_NoDup; [exact Hwf|].
    apply sublist_app; [done|]. apply sublist_skip, sublist_nil_l.
  - unfold wf in Hwf. rewrite Hlive in Hwf.
    intros cb Hcb. erewrite received_after by (simpl; done).
    rewrite count_absent; [lia|].
    apply list.NoDup_app in Hwf as (_ & Hdisj & Hpost).
    apply list.NoDup_cons in Hpost as [Hcpost _].
    intros [Hin| ->%list_elem_of_singleton]%elem_of_app; [|done].
    apply (Hdisj _ Hin). by right.
Qed.

Lemma subscriber_error_stops_delivery_witness :
  ∃ w', onmessage Samples.parse Samples.behaviour 4 "{event 11}"
          Samples.raising_subscriber = Some w'
        ∧ calls w' = [(1%nat, Samples.event_11);
                      (0%nat, Samples.event_11)]
        ∧ console w' = [ErrParsing].
Proof.
  destruct (subscriber_error_stops_delivery Samples.parse Samples.behaviour 4
              "{event 11}" Samples.event_11
              Samples.raising_subscriber [1%nat] 0%nat [3%nat])
    as (w' & Hrun & Hcalls & Hconsole & _).
  - reflexivity.
  - apply samples_self_only.
  - apply (bool_decide_unpack _). vm_compute. reflexivity.
  - reflexivity.
  - intros cb Hcb. apply list_elem_of_singleton in Hcb. subst cb. reflexivity.
  - reflexivity.
  - simpl. lia.
  - exists w'. split; [exact Hrun|]. split; [exact Hcalls|exact Hconsole].
Defined.

(** C6.  The guard of [connect()] tests for an open socket only.  The
    service has been asked to connect once and the socket has not opened
    yet (the Connecting state); a second [connect()] is not a no-op: it
    creates a second socket and makes it the current one, while the first
    is left to complete. *)
Lemma connect_while_connecting_opens_second_socket :
  Connecting Samples.connecting
  ∧ ¬ connect_is_noop Samples.connecting
  ∧ sockets (connect true Samples.connecting) = [CONNECTING; CONNECTING]
  ∧ ws (service Samples.connecting) = Some 0%nat
  ∧ ws (service (connect true Samples.connecting)) = Some 1%nat.
Proof.
  split; [reflexivity|]. split; [|by split_and!].
  intros [Hservice _]. vm_compute in Hservice. discriminate.
Qed.




(** C9.  In a well-formed registry, calling an unsubscribe handle again
    leaves the set as the first call left it.  When callbacks call their own
    handle while the envelope is delivered to them (and none raises), the
    loop still ends normally and has invoked every subscriber of the set,
    once and in registration order; the set then holds the subscribers that
    did not unsubscribe. *)
Theorem unsubscribe_safe
    (behaviour : CallbackId → Callback)
    (fuel : nat) (m : JsValue) (w : World) (c : CallbackId) :
  wf w →
  self_only behaviour m →
  (∀ cb, Some cb ∈ callbacks (service w) → throws (behaviour cb) m = false) →
  (length (callbacks (service w)) < fuel)%nat →
  unsubscribe c (unsubscribe c w) = unsubscribe c w
  ∧ ∃ w', forEach behaviour fuel m 0 w = Some (Normal w')
          ∧ calls w' = calls w ++ ((λ cb, (cb, m)) <$> live (callbacks (service w)))
          ∧ (∀ cb, cb ∈ live (callbacks (service w)) →
                   received cb m w' = S (received cb m w))
          ∧ live (callbacks (service w'))
            = filter (λ cb, quiet behaviour m cb = true) (live (callbacks (service w))).
Proof.
  intros Hwf Hself Hno Hfuel. split.
  - unfold unsubscribe. simpl. rewrite put_callbacks_put.
    by rewrite set_delete_twice.
  - pose proof (forEach_sweep behaviour m Hself (callbacks (service w)) [] w fuel
                  _ _ _ (sweep_no_throw behaviour m _ Hno) eq_refl Hwf Hfuel) as Hrun.
    simpl in Hrun. eexists. split; [exact Hrun|]. simpl. split_and!; [done| |].
    + intros cb Hcb. erewrite received_after by (simpl; done).
      rewrite count_NoDup_elem by done. lia.
    + apply live_slot_after.
Qed.

Lemma unsubscribe_safe_witness :
  ∃ w', forEach Samples.behaviour 4 Samples.event_11 0
          Samples.three_subscribers = Some (Normal w')
        ∧ calls w' = [(1%nat, Samples.event_11);
                      (2%nat, Samples.event_11);
                      (3%nat, Samples.event_11)]
        ∧ live (callbacks (service w')) = [1%nat; 3%nat].
Proof.
  destruct (unsubscribe_safe Samples.behaviour 4 Samples.event_11
              Samples.three_subscribers 2%nat)
    as (_ & w' & Hrun & Hcalls & _ & Hset).
  - apply (bool_decide_unpack _). vm_compute. reflexivity.
  - apply samples_self_only.
  - intros cb Hcb. simpl. apply bool_decide_eq_false_2. intros ->.
    revert Hcb. apply (bool_decide_unpack _). vm_compute. reflexivity.
  - simpl. lia.
  - exists w'. split; [exact Hrun|]. split; [exact Hcalls|exact Hset].
Defined.




End service_claims.

(** ** Further properties of the list handlers *)

Section list_handlers_more.

Lemma findIndex_present {A} (p : A → bool) (l : list A) (x : A) :
  x ∈ l → p x = true → 0 ≤ findIndex p l.
Proof.
  intros Hx Hp. destruct (Z.le_gt_cases 0 (findIndex p l)) as [|Hneg]; [done|].
  pose proof (findIndex_absent p l Hneg x Hx). congruence.
Qed.

Lemma elem_of_insert_inv {A} (l : list A) (i : nat) (x y : A) :
  y ∈ <[i := x]> l → y = x ∨ y ∈ l.
Proof.
  intros [j Hj]%list_elem_of_lookup_1.
  destruct (decide (i = j)) as [->|Hne].
  - destruct (decide (j < length l)%nat) as [Hlt|Hge].
    + rewrite list_lookup_insert_eq in Hj by done. left. congruence.
    + rewrite list_insert_ge in Hj by lia. right. by eapply list_elem_of_lookup_2.
  - rewrite list_lookup_insert_ne in Hj by done.
    right. by eapply list_elem_of_lookup_2.
Qed.

Lemma NoDup_fmap_eq {A B} (f : A → B) (l : list A) (x y : A) :
  NoDup (f <$> l) → x ∈ l → y ∈ l → f x = f y → x = y.
Proof.
  induction l as [|a l IH]; intros Hnd Hx Hy Hf.
  - by apply elem_of_nil in Hx.
  - rewrite fmap_cons in Hnd. apply list.NoDup_cons in Hnd as [Ha Hnd].
    apply elem_of_cons in Hx as [->|Hx]; apply elem_of_cons in Hy as [->|Hy].
    + done.
    + exfalso. apply Ha. rewrite Hf. apply list_elem_of_fmap. eauto.
    + exfalso. apply Ha. rewrite <- Hf. apply list_elem_of_fmap. eauto.
    + by apply IH.
Qed.

Lemma sessions_reconcile_app pageSize snapshot pushes later :
  Sessions.reconcile pageSize snapshot (pushes ++ later) =
  Sessions.reconcile pageSize (Sessions.reconcile pageSize snapshot pushes) later.
Proof. unfold Sessions.reconcile. by rewrite foldl_app. Qed.

Lemma sessions_reconcile_NoDup pageSize snapshot pushes :
  NoDup (Sessions.id <$> snapshot) →
  NoDup (Sessions.id <$> Sessions.reconcile pageSize snapshot pushes).
Proof.
  intros Hnd. induction pushes as [|s pushes IH] using rev_ind; [done|].
  rewrite sessions_reconcile_snoc. by apply handleSessionUpdate_NoDup.
Qed.

Lemma handleSessionUpdate_lookup pageSize session prev :
  ∃ k : nat,
    findIndex (Sessions.same_id session)
      (Sessions.handleSessionUpdate pageSize session prev) = Z.of_nat k
    ∧ Sessions.handleSessionUpdate pageSize session prev !! k = Some session.
Proof.
  destruct (Z.le_gt_cases 0 (findIndex (Sessions.same_id session) prev)) as [Hge|Hlt].
  - rewrite handleSessionUpdate_found by done.
    destruct (findIndex_found _ _ Hge) as (x & Hx & _).
    exists (Z.to_nat (findIndex (Sessions.same_id session) prev)). split.
    + rewrite findIndex_insert_same by (done || apply same_id_refl). lia.
    + apply list_lookup_insert_eq. by eapply lookup_lt_Some.
  - rewrite handleSessionUpdate_absent by lia. exists 0%nat. split; [|done].
    by rewrite findIndex_head by apply same_id_refl.
Qed.

Lemma handleSessionUpdate_elem pageSize t prev x :
  x ∈ Sessions.handleSessionUpdate pageSize t prev → x = t ∨ x ∈ prev.
Proof.
  destruct (Z.le_gt_cases 0 (findIndex (Sessions.same_id t) prev)) as [Hge|Hlt].
  - rewrite handleSessionUpdate_found by done. apply elem_of_insert_inv.
  - rewrite handleSessionUpdate_absent by lia.
    destruct (slice0_prefix (pageSize - 1) prev) as [k ->].
    intros [->|Hx]%elem_of_cons; [by left|]. right. by eapply subseteq_take.
Qed.

End list_handlers_more.

(** X1.  An envelope for a session that is in the list replaces that entry
    where it stands: the list keeps its length, the entry's position holds
    the pushed session, and every other position is untouched. *)
Theorem session_update_in_place
    (pageSize : Z) (session : Sessions.Session) (prev : list Sessions.Session) :
  Sessions.id session ∈ Sessions.id <$> prev →
  ∃ (k : nat) (old : Sessions.Session),
    prev !! k = Some old
    ∧ Sessions.id old = Sessions.id session
    ∧ length (Sessions.handleSessionUpdate pageSize session prev) = length prev
    ∧ Sessions.handleSessionUpdate pageSize session prev !! k = Some session
    ∧ ∀ j, j ≠ k →
           Sessions.handleSessionUpdate pageSize session prev !! j = prev !! j.
Proof.
  intros (x & Hid & Hx)%list_elem_of_fmap.
  assert (0 ≤ findIndex (Sessions.same_id session) prev) as Hge.
  { apply (findIndex_present _ _ x Hx). by apply same_id_true. }
  destruct (findIndex_found _ _ Hge) as (old & Hold & Hp).
  apply same_id_true in Hp.
  exists (Z.to_nat (findIndex (Sessions.same_id session) prev)), old.
  rewrite handleSessionUpdate_found by done.
  split_and!; [done|done|apply length_insert| |].
  - apply list_lookup_insert_eq. by eapply lookup_lt_Some.
  - intros j Hj. by apply list_lookup_insert_ne.
Qed.

Lemma session_update_in_place_witness :
  ∃ k : nat,
    Sessions.handleSessionUpdate 2 Samples.s_a' [Samples.s_b; Samples.s_a] !! k
    = Some Samples.s_a'
    ∧ length (Sessions.handleSessionUpdate 2 Samples.s_a' [Samples.s_b; Samples.s_a])
      = 2%nat.
Proof.
  destruct (session_update_in_place 2 Samples.s_a' [Samples.s_b; Samples.s_a])
    as (k & old & _ & _ & Hlen & Hk & _).
  - apply (bool_decide_unpack _). vm_compute. reflexivity.
  - exists k. split; [exact Hk|exact Hlen].
Defined.

(** X2.  After a session envelope has been applied, looking its identity up
    in the list finds the pushed session itself, whether it replaced an
    entry or was inserted. *)
Theorem session_update_then_lookup
    (pageSize : Z) (session : Sessions.Session) (prev : list Sessions.Session) :
  ∃ k : nat,
    findIndex (Sessions.same_id session)
      (Sessions.handleSessionUpdate pageSize session prev) = Z.of_nat k
    ∧ Sessions.handleSessionUpdate pageSize session prev !! k = Some session.
Proof. apply handleSessionUpdate_lookup. Qed.

(** X3.  Last write wins in the sessions list: from a snapshot without
    duplicate identities, once a session has been pushed and no later
    envelope carries its identity, any entry of the view with that identity
    is the pushed session (it may have been evicted, it is never stale). *)
Theorem session_last_write_wins
    (pageSize : Z) (snapshot pushes later : list Sessions.Session)
    (s x : Sessions.Session) :
  NoDup (Sessions.id <$> snapshot) →
  (∀ t, t ∈ later → Sessions.id t ≠ Sessions.id s) →
  x ∈ Sessions.reconcile pageSize snapshot (pushes ++ s :: later) →
  Sessions.id x = Sessions.id s →
  x = s.
Proof.
  intros Hnd Hlater. rewrite (sessions_reconcile_app _ _ pushes (s :: later)).
  change (Sessions.reconcile pageSize ?v (s :: later))
    with (Sessions.reconcile pageSize (Sessions.handleSessionUpdate pageSize s v) later).
  set (v1 := Sessions.handleSessionUpdate pageSize s _).
  assert (∀ y, y ∈ v1 → Sessions.id y = Sessions.id s → y = s) as Hv1.
  { intros y Hy Hid.
    destruct (handleSessionUpdate_lookup pageSize s
                (Sessions.reconcile pageSize snapshot pushes)) as (k & _ & Hk).
    apply list_elem_of_lookup_2 in Hk.
    apply (NoDup_fmap_eq Sessions.id v1); [|done..].
    by apply handleSessionUpdate_NoDup, sessions_reconcile_NoDup. }
  clearbody v1. revert x.
  induction later as [|t later IH] using rev_ind; intros x; [apply Hv1|].
  rewrite sessions_reconcile_snoc. intros Hx Hid.
  apply handleSessionUpdate_elem in Hx as [->|Hx].
  - exfalso. apply (Hlater t); [|done]. apply elem_of_app. right. by left.
  - apply IH; [|done..]. intros u Hu. apply Hlater, elem_of_app. by left.
Qed.

Lemma session_last_write_wins_witness :
  Sessions.reconcile 2 [Samples.s_a; Samples.s_b]
    ([] ++ Samples.s_a' :: [Samples.s_c]) !! 1%nat = Some Samples.s_a'
  ∧ Samples.s_a' = Samples.s_a'.
Proof.
  split; [reflexivity|].
  apply (session_last_write_wins 2 [Samples.s_a; Samples.s_b] [] [Samples.s_c]
           Samples.s_a' Samples.s_a').
  - apply (bool_decide_unpack _). vm_compute. reflexivity.
  - intros t Ht. apply list_elem_of_singleton in Ht. subst t. vm_compute. discriminate.
  - apply (list_elem_of_lookup_2 _ 1%nat). reflexivity.
  - reflexivity.
Defined.

Section feeds_more.

Lemma pushed_events_app pushes later :
  RecentEvents.pushed_events (pushes ++ later) =
  RecentEvents.pushed_events pushes ++ RecentEvents.pushed_events later.
Proof.
  unfold RecentEvents.pushed_events. by rewrite list.filter_app, fmap_app.
Qed.

Lemma pushed_events_cons_event m later :
  type m = event →
  RecentEvents.pushed_events (m :: later) = data m :: RecentEvents.pushed_events later.
Proof.
  intros Hm. unfold RecentEvents.pushed_events.
  by rewrite filter_cons, decide_True by done.
Qed.

Lemma active_sessions_run_snoc st ts t :
  ActiveSessions.run st (ts ++ [t]) = ActiveSessions.step (ActiveSessions.run st ts) t.
Proof. unfold ActiveSessions.run. by rewrite foldl_app. Qed.

Lemma events_page_run_snoc pageSize st pushed e :
  EventsPage.run pageSize st (pushed ++ [e]) =
  EventsPage.handleNewEvent pageSize e (EventsPage.run pageSize st pushed).
Proof. unfold EventsPage.run. by rewrite foldl_app. Qed.

End feeds_more.

(** X4.  The recent-events card is a sliding window over the pushes: an
    event envelope stands at the position equal to the number of event
    envelopes that arrived after it, as long as that number is below six,
    and once an event envelope has arrived the view holds at most six
    entries, however long the fetched snapshot was. *)
Theorem recent_events_sliding_window
    (snapshot : list Event) (pushes later : list WebSocketMessage)
    (m : WebSocketMessage) :
  type m = event →
  let view := RecentEvents.reconcile snapshot (pushes ++ m :: later) in
  let after := length (RecentEvents.pushed_events later) in
  (length view ≤ 6)%nat
  ∧ ((after < 6)%nat → view !! after = Some (data m))
  ∧ ((6 ≤ after)%nat → view !! after = None).
Proof.
  intros Hm view after. unfold view.
  rewrite reconcile_view, pushed_events_app, pushed_events_cons_event by done.
  destruct (RecentEvents.pushed_events pushes ++ data m :: RecentEvents.pushed_events later)
    as [|d ds] eqn:Hds.
  { by destruct (RecentEvents.pushed_events pushes). }
  rewrite <- Hds. clear d ds Hds.
  rewrite reverse_app, reverse_cons, <- !app_assoc. simpl.
  split_and!.
  - rewrite length_take. lia.
  - intros Hlt. rewrite lookup_take_lt by done.
    apply list_lookup_middle. unfold after. by rewrite length_reverse.
  - intros Hge. by apply lookup_take_ge.
Qed.

Lemma recent_events_sliding_window_witness :
  RecentEvents.reconcile [Samples.e_0900]
    ([] ++ Samples.push Samples.e_1000 :: [Samples.push Samples.e_1100]) !! 1%nat
  = Some Samples.e_1000.
Proof.
  destruct (recent_events_sliding_window [Samples.e_0900] []
              [Samples.push Samples.e_1100] (Samples.push Samples.e_1000))
    as (_ & Hpos & _).
  - reflexivity.
  - apply Hpos. simpl. lia.
Defined.

(** X5.  The active-sessions card answers every [session] or [event]
    envelope with one more REST request and nothing else: over any run of
    pushed envelopes the list shown is unchanged, and the number of requests
    issued grows by the number of such envelopes (they are neither batched
    nor skipped while a request is pending). *)
Theorem active_sessions_request_per_envelope
    (st : ActiveSessions.State) (ms : list WebSocketMessage) :
  let st' := ActiveSessions.run st (ActiveSessions.Push <$> ms) in
  ActiveSessions.sessions st' = ActiveSessions.sessions st
  ∧ ActiveSessions.requests st' =
    (ActiveSessions.requests st
     + length (filter (λ m, type m = session ∨ type m = event) ms))%nat.
Proof.
  cbv zeta. induction ms as [|m ms IH] using rev_ind.
  - split; [done|]. simpl. lia.
  - rewrite fmap_app. simpl (_ <$> [m]). rewrite active_sessions_run_snoc.
    destruct IH as [IHs IHr].
    rewrite list.filter_app, length_app, filter_cons, filter_nil.
    cbn [ActiveSessions.step]. unfold ActiveSessions.on_message.
    destruct (type m) eqn:Hty;
      (rewrite decide_True by auto) || (rewrite decide_False by (intros [?|?]; discriminate));
      simpl; (split; [done|lia]).
Qed.

(** X6.  The live counters of the events page: after [n] pushed events the
    total has grown by [n], the entries counter by the number of pushed
    events of type entry, the exits counter by the number of type exit (an
    event of another type raises neither), the denied counter by the number
    of pushed events whose barrier action is denied; every push has shown
    one toast, and the success rate is the one computed at the last fetch. *)
Theorem events_page_counters
    (pageSize : Z) (st : EventsPage.State) (pushed : list EventsPage.Event) :
  let st' := EventsPage.run pageSize st pushed in
  let count (P : EventsPage.Event → bool) :=
    Z.of_nat (length (List.filter P pushed)) in
  EventsPage.total (EventsPage.stats st')
  = EventsPage.total (EventsPage.stats st) + Z.of_nat (length pushed)
  ∧ EventsPage.entries (EventsPage.stats st')
    = EventsPage.entries (EventsPage.stats st)
      + count (λ e, bool_decide (EventsPage.event_type e = entry))
  ∧ EventsPage.exits (EventsPage.stats st')
    = EventsPage.exits (EventsPage.stats st)
      + count (λ e, bool_decide (EventsPage.event_type e = exit))
  ∧ EventsPage.denied (EventsPage.stats st')
    = EventsPage.denied (EventsPage.stats st)
      + count (λ e, bool_decide (EventsPage.barrier_action e = EventsPage.barrier_denied))
  ∧ length (EventsPage.toasts st') = (length (EventsPage.toasts st) + length pushed)%nat
  ∧ EventsPage.success_rate (EventsPage.stats st')
    = EventsPage.success_rate (EventsPage.stats st).
Proof.
  cbv zeta. induction pushed as [|e pushed IH] using rev_ind.
  - simpl. split_and!; try done; lia.
  - rewrite events_page_run_snoc.
    destruct IH as (Ht & Hen & Hex & Hd & Hto & Hsr).
    rewrite !List.filter_app, !length_app, !Nat2Z.inj_add. simpl.
    split_and!.
    + lia.
    + destruct (EventsPage.event_type e); simpl; lia.
    + destruct (EventsPage.event_type e); simpl; lia.
    + destruct (EventsPage.barrier_action e); simpl; lia.
    + rewrite length_app. simpl. lia.
    + done.
Qed.

(** X7.  The list of the events page is capped: seeded with at most
    [pageSize] entries ([pageSize] at least 1) it never exceeds [pageSize],
    and once events have been pushed it is the pushed events, latest first,
    followed by the fetched page, cut to [pageSize] entries. *)
Theorem events_page_view
    (pageSize : Z) (st : EventsPage.State) (pushed : list EventsPage.Event) :
  1 ≤ pageSize →
  pushed ≠ [] →
  EventsPage.events (EventsPage.run pageSize st pushed)
  = take (Z.to_nat pageSize) (reverse pushed ++ EventsPage.events st)
  ∧ Z.of_nat (length (EventsPage.events (EventsPage.run pageSize st pushed))) ≤ pageSize.
Proof.
  intros Hps Hne.
  assert (EventsPage.events (EventsPage.run pageSize st pushed)
          = take (Z.to_nat pageSize) (reverse pushed ++ EventsPage.events st)) as Hview.
  { induction pushed as [|e pushed IH] using rev_ind; [done|]. clear Hne.
    rewrite events_page_run_snoc, reverse_app. simpl.
    rewrite <- (Z2Nat.id (pageSize - 1)) by lia. rewrite slice0_nonneg.
    replace (Z.to_nat pageSize) with (S (Z.to_nat (pageSize - 1))) by lia.
    simpl. f_equal.
    destruct pushed as [|e' pushed'] using rev_ind; [done|].
    rewrite IH by (by destruct pushed').
    rewrite take_take. f_equal. lia. }
  split; [done|]. rewrite Hview, length_take. lia.
Qed.

Lemma events_page_view_witness :
  Z.of_nat (length (EventsPage.events
                      (EventsPage.run 1
                         {| EventsPage.events := [];
                            EventsPage.stats :=
                              {| EventsPage.total := 0; EventsPage.entries := 0;
                                 EventsPage.exits := 0; EventsPage.denied := 0;
                                 EventsPage.success_rate := QArith_base.Qmake 0 1 |};
                            EventsPage.toasts := [] |}
                         [{| EventsPage.id := "e1";
                             EventsPage.timestamp := "2024-05-01T10:00:00";
                             EventsPage.plate_number := "ABC123";
                             EventsPage.event_type := entry;
                             EventsPage.camera_id := "cam-1";
                             EventsPage.confidence := 97;
                             EventsPage.vehicle_found := true;
                             EventsPage.barrier_action := EventsPage.barrier_opened;
                             EventsPage.processing_time_ms := 120;
                             EventsPage.image_path := None;
                             EventsPage.vehicle_details := None |}]))) ≤ 1.
Proof.
  eapply proj2. apply events_page_view.
  - lia.
  - discriminate.
Defined.

(** ** Properties of the pagination hook *)

Section pagination_lemmas.
Import Pagination.

(** The rounded-up quotient is the least number of pages that hold all
    the items. *)
Lemma ceil_div_spec (a b : Z) :
  0 < b → b * (ceil_div a b - 1) < a ≤ b * ceil_div a b.
Proof.
  intros Hb. unfold ceil_div.
  pose proof (Z.div_mod (- a) b ltac:(lia)) as Hdm.
  pose proof (Z.mod_pos_bound (- a) b Hb). nia.
Qed.

Lemma totalPages_ge_1 totalItems st : 1 ≤ totalPages totalItems st.
Proof. unfold totalPages. lia. Qed.

Lemma totalPages_setCurrentPage totalItems page st :
  totalPages totalItems (setCurrentPage page st) = totalPages totalItems st.
Proof. done. Qed.

End pagination_lemmas.



(** X9.  The pages tile the items: with a positive page size, a
    non-negative item count and a current page that is one of the pages,
    the window [startIndex .. endIndex) lies within the items and holds at
    most [pageSize] of them; the first page starts at 0, the window of the
    next page starts where this one ends, and the window of the last page
    ends at [totalItems]. *)
Theorem pagination_windows_tile (totalItems : Z) (st : Pagination.State) :
  0 < Pagination.pageSize st →
  0 ≤ totalItems →
  Pagination.in_range totalItems st →
  0 ≤ Pagination.startIndex st
  ∧ Pagination.startIndex st ≤ Pagination.endIndex totalItems st
  ∧ Pagination.endIndex totalItems st ≤ totalItems
  ∧ Pagination.endIndex totalItems st - Pagination.startIndex st ≤ Pagination.pageSize st
  ∧ Pagination.startIndex (Pagination.goToFirstPage st) = 0
  ∧ (Pagination.canGoNext totalItems st = true →
     Pagination.startIndex (Pagination.nextPage totalItems st)
     = Pagination.endIndex totalItems st)
  ∧ (Pagination.canGoNext totalItems st = false →
     Pagination.endIndex totalItems st = totalItems).
Proof.
  intros Hps Hti [Hlo Hhi].
  pose proof (ceil_div_spec totalItems (Pagination.pageSize st) Hps) as Hceil.
  unfold Pagination.totalPages in Hhi.
  unfold Pagination.endIndex, Pagination.startIndex, Pagination.nextPage,
    Pagination.canGoNext, Pagination.totalPages.
  set (q := Pagination.ceil_div totalItems (Pagination.pageSize st)) in *.
  set (ps := Pagination.pageSize st) in *.
  set (cp := Pagination.currentPage st) in *.
  assert (cp = 1 ∨ (2 ≤ cp ∧ cp ≤ q)) as Hcases by lia.
  split_and!.
  - nia.
  - destruct Hcases as [->|[? ?]]; nia.
  - lia.
  - lia.
  - simpl. lia.
  - intros Hnext%Z.ltb_lt. rewrite (proj2 (Z.ltb_lt _ _) Hnext). simpl.
    fold ps cp. nia.
  - intros Hlast%Z.ltb_ge. nia.
Qed.

Lemma pagination_windows_tile_witness :
  Pagination.endIndex 95 (Pagination.setCurrentPage 5 (Pagination.initial None None))
  = 95.
Proof.
  destruct (pagination_windows_tile 95
              (Pagination.setCurrentPage 5 (Pagination.initial None None)))
    as (_ & _ & _ & _ & _ & _ & Hlast).
  - simpl. lia.
  - lia.
  - unfold Pagination.in_range. vm_compute. split; discriminate.
  - apply Hlast. reflexivity.
Defined.



(** ** Properties of the formatting helpers *)

(** X11.  [formatDuration] shows "N/A" for a missing and for a zero
    duration; below an hour it shows the minutes alone; from an hour on it
    shows hours and minutes that add up to the duration, with fewer than
    sixty minutes; for a negative duration the hour part is dropped and
    only the remainder of the division by sixty is shown. *)
Theorem formatDuration_parts (minutes : Z) :
  SessionsView.formatDuration None = "N/A"
  ∧ SessionsView.formatDuration (Some 0) = "N/A"
  ∧ (0 < minutes < 60 →
     SessionsView.formatDuration (Some minutes) = pretty minutes +:+ "m")
  ∧ (60 ≤ minutes →
     ∃ h m, 1 ≤ h ∧ 0 ≤ m < 60 ∧ minutes = 60 * h + m
            ∧ SessionsView.formatDuration (Some minutes)
              = pretty h +:+ "h " +:+ pretty m +:+ "m")
  ∧ (minutes < 0 →
     SessionsView.formatDuration (Some minutes)
     = pretty (Z.rem minutes 60) +:+ "m").
Proof.
  split_and!; [done|done|..].
  - intros Hm. unfold SessionsView.formatDuration.
    destruct minutes as [|p|p]; [lia| |lia].
    rewrite Z.div_small by lia. rewrite Z.rem_small by lia. done.
  - intros Hm. exists (minutes / 60), (minutes mod 60).
    pose proof (Z.div_mod minutes 60 ltac:(lia)).
    pose proof (Z.mod_pos_bound minutes 60 ltac:(lia)).
    assert (1 ≤ minutes / 60) by (apply Z.div_le_lower_bound; lia).
    split_and!; [lia..|].
    unfold SessionsView.formatDuration.
    destruct minutes as [|p|p]; [lia| |lia].
    rewrite Z.rem_mod_nonneg by lia.
    by destruct (Z.ltb_spec 0 (Z.pos p / 60)); [|lia].
  - intros Hm. unfold SessionsView.formatDuration.
    destruct minutes as [|p|p]; [lia|lia|].
    assert (Z.neg p / 60 < 0) by (apply Z.div_lt_upper_bound; lia).
    by destruct (Z.ltb_spec 0 (Z.neg p / 60)); [lia|].
Qed.

Lemma formatDuration_parts_witness :
  SessionsView.formatDuration (Some 45) = pretty 45 +:+ "m"
  ∧ ∃ h m, 1 ≤ h ∧ 0 ≤ m < 60 ∧ 135 = 60 * h + m
            ∧ SessionsView.formatDuration (Some 135)
              = pretty h +:+ "h " +:+ pretty m +:+ "m".
Proof.
  destruct (formatDuration_parts 45) as (_ & _ & Hshort & _ & _).
  destruct (formatDuration_parts 135) as (_ & _ & _ & Hlong & _).
  split.
  - apply Hshort. lia.
  - apply Hlong. lia.
Defined.

(** X12.  [formatRelativeTime] picks one unit and never shows a zero or a
    number that belongs to the next unit: under a minute (and for a
    timestamp in the future) it says "Just now", then 1 to 59 minutes, then
    1 to 23 hours, then at least one day. *)
Theorem formatRelativeTime_buckets (diffMs : Z) :
  (diffMs < 60000 ∧ SessionsView.formatRelativeTime diffMs = "Just now")
  ∨ (∃ n, 1 ≤ n < 60 ∧ n = diffMs / 60000
          ∧ SessionsView.formatRelativeTime diffMs = pretty n +:+ "m ago")
  ∨ (∃ n, 1 ≤ n < 24 ∧ n = diffMs / 3600000
          ∧ SessionsView.formatRelativeTime diffMs = pretty n +:+ "h ago")
  ∨ (∃ n, 1 ≤ n ∧ n = diffMs / 86400000
          ∧ SessionsView.formatRelativeTime diffMs = pretty n +:+ "d ago").
Proof.
  unfold SessionsView.formatRelativeTime.
  pose proof (Z.div_mod diffMs 60000 ltac:(lia)).
  pose proof (Z.mod_pos_bound diffMs 60000 ltac:(lia)).
  pose proof (Z.div_mod diffMs 3600000 ltac:(lia)).
  pose proof (Z.mod_pos_bound diffMs 3600000 ltac:(lia)).
  pose proof (Z.div_mod diffMs 86400000 ltac:(lia)).
  pose proof (Z.mod_pos_bound diffMs 86400000 ltac:(lia)).
  destruct (Z.ltb_spec (diffMs / 60000) 1) as [Hm|Hm].
  { left. split; [lia|done]. }
  right. destruct (Z.ltb_spec (diffMs / 60000) 60) as [Hm60|Hm60].
  { left. exists (diffMs / 60000). split_and!; [lia|lia|done|done]. }
  right. destruct (Z.ltb_spec (diffMs / 3600000) 24) as [Hh|Hh].
  { left. exists (diffMs / 3600000). split_and!; [lia|lia|done|done]. }
  right. exists (diffMs / 86400000). split_and!; [lia|done|done].
Qed.

(** ** The service over time *)

Section service_run_lemmas.
Import WebSocketService ServiceRun.
Variable WS_URL_accepted : bool.
Variable JSON_parse : string → option JsValue.
Variable behaviour : CallbackId → Callback.
Implicit Types (w : World) (m : JsValue).

Lemma same_connection_refl w : same_connection w w.
Proof. by repeat split. Qed.

Lemma same_connection_trans w1 w2 w3 :
  same_connection w1 w2 → same_connection w2 w3 → same_connection w1 w3.
Proof.
  intros (Ha1 & Ha2 & Ha3 & Ha4 & Ha5 & Ha6) (Hb1 & Hb2 & Hb3 & Hb4 & Hb5 & Hb6).
  repeat split; congruence.
Qed.

Lemma call_frame_refl w : call_frame w w.
Proof. split; [apply same_connection_refl|done]. Qed.

Lemma call_frame_trans w1 w2 w3 :
  call_frame w1 w2 → call_frame w2 w3 → call_frame w1 w3.
Proof.
  intros (Ha & Hc1 & Ht1 & Hs1 & Hw1) (Hb & Hc2 & Ht2 & Hs2 & Hw2).
  split; [by eapply same_connection_trans|].
  split_and!; try congruence. auto.
Qed.

Lemma perform_frame a w : call_frame w (perform a w).
Proof.
  split; [by destruct a|]. split_and!; [by destruct a..|]. apply wf_perform.
Qed.

Lemma perform_all_frame acts w :
  call_frame w (foldl (λ w a, perform a w) w acts).
Proof.
  revert w. induction acts as [|a acts IH]; intros w; [apply call_frame_refl|].
  simpl. eapply call_frame_trans; [apply perform_frame|apply IH].
Qed.

Lemma call_frame_call cb m w c :
  call behaviour cb m w = c → call_frame w (world_of c).
Proof.
  intros <-. unfold call.
  assert (call_frame w (record_call cb m w)) as Hrec by (by repeat split).
  destruct (throws (behaviour cb) m); simpl;
    (eapply call_frame_trans; [exact Hrec|apply perform_all_frame]).
Qed.

Lemma forEach_frame m fuel : ∀ i w c,
  forEach behaviour fuel m i w = Some c → call_frame w (world_of c).
Proof.
  induction fuel as [|fuel IH]; intros i w c; [done|]. simpl.
  destruct (callbacks (service w) !! i) as [[cb|]|].
  - pose proof (call_frame_call cb m w _ eq_refl) as Hcall.
    destruct (call behaviour cb m w) as [w1|w1]; simpl in Hcall.
    + intros Hrun. eapply call_frame_trans; [exact Hcall|by eapply IH].
    + by intros [= <-].
  - apply IH.
  - intros [= <-]. apply call_frame_refl.
Qed.

Lemma onmessage_frame fuel frame w w' :
  onmessage JSON_parse behaviour fuel frame w = Some w' →
  same_connection w w' ∧ (wf w → wf w').
Proof.
  unfold onmessage. destruct (JSON_parse frame) as [m|].
  - destruct (forEach behaviour fuel m 0 w) as [c|] eqn:Hrun; [|done].
    apply forEach_frame in Hrun as (Hsame & _ & _ & _ & Hwf).
    destruct c as [w1|w1]; simpl in *; intros [= <-].
    + destruct m as [e| |raw]; [|by split..].
      unfold handleEventMessage.
      destruct (type e); [destruct (event_type (data e))|..]; by split.
    + by split.
  - intros [= <-]. by split.
Qed.

(** *** The invariant, operation by operation *)

Lemma filter_other_singleton (tid : TimerId) : filter (λ t, t ≠ tid) [tid] = [].
Proof. rewrite filter_cons, filter_nil. by rewrite decide_False by (intros H; by apply H). Qed.

Lemma inv_log line w : inv w → inv (log line w).
Proof. done. Qed.

Lemma inv_reconnect w : inv w → inv (reconnect w).
Proof.
  intros (Hwf & Ht & Hws). unfold reconnect.
  destruct (reconnectTimer (service w)) as [t|] eqn:Hrt; simpl; [done|].
  destruct (isIntentionallyClosed (service w)); simpl; [done|].
  split_and!; [done| |done].
  unfold timers_tracked in *. simpl. by rewrite Ht, Hrt.
Qed.

Lemma inv_clear_reconnectTimer w : inv w → inv (clear_reconnectTimer w).
Proof.
  intros (Hwf & Ht & Hws). unfold clear_reconnectTimer.
  destruct (reconnectTimer (service w)) as [t|] eqn:Hrt; [|done].
  split_and!; [done| |done].
  unfold timers_tracked in *. simpl. rewrite Ht, Hrt. apply filter_other_singleton.
Qed.

Lemma inv_connect w : inv w → inv (connect WS_URL_accepted w).
Proof.
  intros Hinv. unfold connect. destruct (isConnected w); [done|].
  destruct WS_URL_accepted; [|by apply inv_reconnect].
  destruct Hinv as (Hwf & Ht & Hws). split_and!; [done|done|].
  intros sid [= <-]. simpl. rewrite length_app. simpl. lia.
Qed.

Lemma inv_sockets_insert sid st w : inv w → inv (with_sockets (<[sid := st]> (sockets w)) w).
Proof.
  intros (Hwf & Ht & Hws). split_and!; [done|done|].
  intros s Hs. simpl. rewrite length_insert. by apply Hws.
Qed.

Lemma inv_ws_none w : inv w → inv (with_service (set_ws None) w).
Proof. intros (Hwf & Ht & Hws). by split_and!. Qed.

Lemma inv_closed_flag b w : inv w → inv (with_service (set_isIntentionallyClosed b) w).
Proof. done. Qed.

Lemma inv_disconnect w : inv w → inv (disconnect w).
Proof.
  intros Hinv. unfold disconnect.
  set (w1 := clear_reconnectTimer _).
  assert (inv w1) as H1 by (by apply inv_clear_reconnectTimer, inv_closed_flag).
  destruct (ws (service w1)); [|done].
  by apply inv_ws_none, inv_sockets_insert.
Qed.

Lemma inv_onopen sid w : inv w → inv (onopen sid w).
Proof.
  intros Hinv. unfold onopen.
  apply inv_clear_reconnectTimer, inv_closed_flag, inv_log.
  by apply inv_sockets_insert.
Qed.

Lemma inv_onclose sid w : inv w → inv (onclose sid w).
Proof.
  intros Hinv. unfold onclose.
  set (w1 := with_service _ _).
  assert (inv w1) as H1.
  { by apply inv_ws_none, inv_log, inv_sockets_insert. }
  destruct (isIntentionallyClosed (service w1)); [done|by apply inv_reconnect].
Qed.

Lemma inv_send frame w : inv w → inv (send frame w).
Proof.
  intros Hinv. unfold send. destruct (ws (service w)); [|done].
  by destruct (isConnected w).
Qed.

Lemma inv_timer_fires tid w : inv w → inv (timer_fires WS_URL_accepted tid w).
Proof.
  intros Hinv. unfold timer_fires. destruct (decide (tid ∈ timers w)) as [Hin|]; [|done].
  apply inv_connect. destruct Hinv as (Hwf & Ht & Hws).
  split_and!; [done| |done].
  unfold timers_tracked in *. simpl. rewrite Ht in Hin |- *.
  destruct (reconnectTimer (service w)) as [t|].
  - apply list_elem_of_singleton in Hin as ->. apply filter_other_singleton.
  - done.
Qed.

Lemma inv_same_connection w w' :
  same_connection w w' → (wf w → wf w') → inv w → inv w'.
Proof.
  intros (Hs & Ht & _ & Hws & Hrt & _) Hwf (Hwf0 & Htr & Hex). split_and!; [auto| |].
  - unfold timers_tracked in *. by rewrite Ht, Hrt.
  - unfold ws_exists in *. by rewrite Hs, Hws.
Qed.

Lemma inv_apply_op op w w' :
  inv w → apply_op WS_URL_accepted JSON_parse behaviour op w = Some w' → inv w'.
Proof.
  intros Hinv. destruct op; simpl; try (intros [= <-]).
  - by apply inv_connect.
  - by apply inv_disconnect.
  - destruct Hinv as (Hwf & Ht & Hws). split_and!; [by apply wf_subscribe|done..].
  - destruct Hinv as (Hwf & Ht & Hws). split_and!; [by apply wf_unsubscribe|done..].
  - by apply inv_send.
  - by apply inv_onopen.
  - done.
  - by apply inv_onclose.
  - intros Hmsg. apply onmessage_frame in Hmsg as [Hsame Hwf].
    by eapply inv_same_connection.
  - by apply inv_timer_fires.
Qed.

Lemma inv_run_ops ops : ∀ w w',
  inv w → run_ops WS_URL_accepted JSON_parse behaviour ops w = Some w' → inv w'.
Proof.
  induction ops as [|op ops IH]; intros w w' Hinv; simpl.
  - by intros [= <-].
  - destruct (apply_op _ _ _ op w) as [w1|] eqn:Hop; [|done].
    apply IH. by eapply inv_apply_op.
Qed.

Lemma inv_new_world : inv new_world.
Proof. split_and!; [apply wf_new_world|done|done]. Qed.

End service_run_lemmas.

Section service_extras.
Import WebSocketService ServiceRun.

(** X13.  Whatever sequence of method calls, socket events and timeouts
    the service goes through from its initial state, no callback occupies
    two entries of the set, the pending timeouts are exactly the one held in
    [reconnectTimer] (so at most one reconnect is ever pending), and the
    current socket is one the service has created. *)
Theorem service_invariant
    (WS_URL_accepted : bool)
    (JSON_parse : string → option JsValue)
    (behaviour : CallbackId → Callback)
    (ops : list Op) (w : World) :
  run_ops WS_URL_accepted JSON_parse behaviour ops new_world = Some w →
  inv w ∧ (length (timers w) ≤ 1)%nat.
Proof.
  intros Hrun.
  assert (inv w) as Hinv by (eapply inv_run_ops; [apply inv_new_world|exact Hrun]).
  split; [done|]. destruct Hinv as (_ & Ht & _). rewrite Ht.
  destruct (reconnectTimer (service w)); simpl; lia.
Qed.

Lemma service_invariant_witness :
  ∃ w, run_ops true Samples.parse Samples.behaviour
         [Connect; Subscribe 1%nat; SocketOpens 0%nat;
          SocketMessage 2 "{event 11}"; SocketCloses 0%nat; SocketCloses 0%nat]
         new_world = Some w
       ∧ (length (timers w) ≤ 1)%nat.
Proof.
  eexists. split; [vm_compute; reflexivity|].
  eapply proj2.
  apply (service_invariant true Samples.parse Samples.behaviour
           [Connect; Subscribe 1%nat; SocketOpens 0%nat;
            SocketMessage 2 "{event 11}"; SocketCloses 0%nat; SocketCloses 0%nat]).
  vm_compute. reflexivity.
Defined.

(** X14.  [disconnect()] is final: afterwards the service holds no socket
    and no timer and reports not connected, [send] only logs, the close
    event of the socket schedules no reconnect, and a second
    [disconnect()] changes nothing. *)
Theorem disconnect_is_final (w : World) (sid : SocketId) (frame : string) :
  timers_tracked w →
  let w1 := disconnect w in
  ws (service w1) = None
  ∧ reconnectTimer (service w1) = None
  ∧ timers w1 = []
  ∧ isConnected w1 = false
  ∧ send frame w1 = log ErrNotConnected w1
  ∧ reconnectTimer (service (onclose sid w1)) = None
  ∧ timers (onclose sid w1) = []
  ∧ disconnect w1 = w1.
Proof.
  intros Ht. destruct w as [[cur cbs rt ic] socks tms nt con tst snt cls].
  unfold timers_tracked in Ht. simpl in Ht. subst tms.
  destruct rt as [t|]; destruct cur as [s|]; cbv zeta;
    unfold disconnect, clear_reconnectTimer, onclose, send, isConnected, readyState,
      reconnect; simpl; rewrite ?filter_other_singleton; by split_and!.
Qed.

Lemma disconnect_is_final_witness :
  isConnected (disconnect Samples.connected) = false
  ∧ timers (onclose 0%nat (disconnect Samples.connected)) = [].
Proof.
  destruct (disconnect_is_final Samples.connected 0%nat "{}")
    as (_ & _ & _ & Hconn & _ & _ & Htimers & _).
  - reflexivity.
  - split; [exact Hconn|exact Htimers].
Defined.

(** X15.  Automatic reconnection: when a socket closes while the service
    has not been disconnected on purpose and no reconnect is pending, one
    timeout is scheduled; when it fires (the URL being accepted) a new
    socket is created in the connecting state and becomes the current one,
    and no timeout is left pending. *)
Theorem close_then_reconnect (w : World) (sid : SocketId) :
  timers_tracked w →
  isIntentionallyClosed (service w) = false →
  reconnectTimer (service w) = None →
  let w1 := onclose sid w in
  let tid := next_timer w in
  let w2 := timer_fires true tid w1 in
  reconnectTimer (service w1) = Some tid
  ∧ timers w1 = [tid]
  ∧ isConnected w1 = false
  ∧ sockets w2 = <[sid := CLOSED]> (sockets w) ++ [CONNECTING]
  ∧ ws (service w2) = Some (length (sockets w))
  ∧ readyState w2 = Some CONNECTING
  ∧ reconnectTimer (service w2) = None
  ∧ timers w2 = [].
Proof.
  intros Ht Hic Hrt. destruct w as [[cur cbs rt ic] socks tms nt con tst snt cls].
  unfold timers_tracked in Ht. simpl in *. subst tms rt ic. cbv zeta.
  unfold onclose, reconnect, timer_fires. simpl.
  rewrite decide_True by (by apply list_elem_of_singleton).
  unfold connect, isConnected, readyState. simpl.
  rewrite filter_other_singleton, length_insert.
  split_and!; try done.
  rewrite lookup_app_r by (rewrite length_insert; lia).
  by rewrite length_insert, Nat.sub_diag.
Qed.

Lemma close_then_reconnect_witness :
  sockets (timer_fires true 0%nat (onclose 0%nat Samples.connected))
  = [CLOSED; CONNECTING].
Proof.
  destruct (close_then_reconnect Samples.connected 0%nat)
    as (_ & _ & _ & Hsockets & _).
  - reflexivity.
  - reflexivity.
  - reflexivity.
  - exact Hsockets.
Defined.

(** X16.  [connect()] does not re-enable automatic reconnection after a
    [disconnect()]: the flag set by [disconnect()] stays set, so if the new
    socket closes before it has opened no reconnect is scheduled; the flag
    is cleared when a socket opens, and a close after that schedules one. *)
Theorem reconnect_disabled_until_open (w : World) (sid sid' : SocketId) :
  timers_tracked w →
  let w1 := connect true (disconnect w) in
  isIntentionallyClosed (service w1) = true
  ∧ ws (service w1) = Some (length (sockets w))
  ∧ reconnectTimer (service (onclose sid w1)) = None
  ∧ timers (onclose sid w1) = []
  ∧ reconnectTimer (service (onclose sid' (onopen sid w1))) = Some (next_timer w)
  ∧ timers (onclose sid' (onopen sid w1)) = [next_timer w].
Proof.
  intros Ht. destruct w as [[cur cbs rt ic] socks tms nt con tst snt cls].
  unfold timers_tracked in Ht. simpl in Ht. subst tms.
  destruct rt as [t|]; destruct cur as [s|]; cbv zeta;
    unfold disconnect, clear_reconnectTimer, connect, isConnected, readyState,
      onclose, onopen, reconnect; simpl;
    rewrite ?filter_other_singleton, ?length_insert; by split_and!.
Qed.

Lemma reconnect_disabled_until_open_witness :
  timers (onclose 1%nat (connect true (disconnect Samples.connected))) = []
  ∧ timers (onclose 1%nat (onopen 1%nat (connect true (disconnect Samples.connected))))
    = [0%nat].
Proof.
  destruct (reconnect_disabled_until_open Samples.connected 1%nat 1%nat)
    as (_ & _ & _ & Hearly & _ & Hlate).
  - reflexivity.
  - split; [exact Hearly|exact Hlate].
Defined.





(** X19.  Cancellation: once a callback's unsubscribe handle has been
    called, the next frame is handled without invoking that callback
    (callbacks registering nothing while they run). *)
Theorem unsubscribed_is_not_invoked
    (JSON_parse : string → option JsValue)
    (behaviour : CallbackId → Callback)
    (fuel : nat) (frame : string) (m : JsValue) (w : World)
    (cb : CallbackId) :
  JSON_parse frame = Some m →
  wf w →
  no_subscribe behaviour m →
  (length (callbacks (service w)) < fuel)%nat →
  ∃ w', onmessage JSON_parse behaviour fuel frame (unsubscribe cb w) = Some w'
        ∧ received cb m w' = received cb m w.
Proof.
  intros Hparse Hwf Hno Hfuel.
  destruct (forEach_no_subscribe behaviour m Hno fuel 0 (unsubscribe cb w))
    as (c & ds & Hrun & Hcalls & Hds).
  { simpl. rewrite set_delete_length. lia. }
  rewrite drop_0 in Hds. simpl in Hds.
  assert (received cb m (world_of c) = received cb m w) as Hsame.
  { rewrite (received_after cb m (unsubscribe cb w) _ ds Hcalls).
    rewrite count_absent; [unfold received; simpl; lia|].
    intros Hin. eapply (set_delete_gone cb); [exact Hwf|].
    apply elem_of_live. by eapply elem_of_sublist. }
  unfold onmessage. rewrite Hparse, Hrun.
  destruct c as [w1|w1]; simpl in Hsame; eexists; (split; [done|]).
  - destruct m as [e| |raw]; [|done..].
    unfold handleEventMessage.
    by destruct (type e); [destruct (event_type (data e))|..].
  - done.
Qed.

Lemma unsubscribed_is_not_invoked_witness :
  ∃ w', onmessage Samples.parse Samples.behaviour 4 "{event 11}"
          (unsubscribe 3%nat Samples.three_subscribers) = Some w'
        ∧ received 3%nat Samples.event_11 w' = 0%nat.
Proof.
  destruct (unsubscribed_is_not_invoked Samples.parse Samples.behaviour 4
              "{event 11}" Samples.event_11
              Samples.three_subscribers 3%nat)
    as (w' & Hrun & Hrec).
  - reflexivity.
  - apply (bool_decide_unpack _). vm_compute. reflexivity.
  - intros cb a Ha. exists cb.
    by apply (samples_self_only Samples.event_11 cb).
  - simpl. lia.
  - exists w'. split; [exact Hrun|exact Hrec].
Defined.

(** X20.  When the current socket opens, the service reports connected,
    a pending reconnect timeout is cancelled, and automatic reconnection is
    enabled again; [send] then transmits on that socket. *)
Theorem open_connects (w : World) (sid : SocketId) (frame : string) :
  timers_tracked w →
  ws (service w) = Some sid →
  (sid < length (sockets w))%nat →
  let w1 := onopen sid w in
  isConnected w1 = true
  ∧ reconnectTimer (service w1) = None
  ∧ timers w1 = []
  ∧ isIntentionallyClosed (service w1) = false
  ∧ sent (send frame w1) = sent w ++ [(sid, frame)]
  ∧ connect true w1 = log LogAlreadyConnected w1.
Proof.
  intros Ht Hws Hsid. destruct w as [[cur cbs rt ic] socks tms nt con tst snt cls].
  unfold timers_tracked in Ht. simpl in *. subst tms cur. cbv zeta.
  assert (<[sid := OPEN]> socks !! sid = Some OPEN) as Hopen
    by (by apply list_lookup_insert_eq).
  destruct rt as [t|];
    unfold onopen, clear_reconnectTimer, send, connect, isConnected, readyState;
    simpl; rewrite ?filter_other_singleton, Hopen; simpl; by split_and!.
Qed.

Lemma open_connects_witness :
  isConnected (onopen 0%nat Samples.connecting) = true
  ∧ sent (send "{ping}" (onopen 0%nat Samples.connecting)) = [(0%nat, "{ping}")].
Proof.
  destruct (open_connects Samples.connecting 0%nat "{ping}")
    as (Hconn & _ & _ & _ & Hsent & _).
  - reflexivity.
  - reflexivity.
  - simpl. lia.
  - split; [exact Hconn|exact Hsent].
Defined.

End service_extras.
